(** * Oasis SVDAG node pool: a shallow embedding and its properties

    The development follows the public headers of the Oasis examples
    repository: [oasis/node_pool.hpp] (the node value type, the 32-bit
    murmur hasher and the [std::hash] specialisation), [oasis/scene.hpp]
    (the triangle accessors), [oasis/node_pool_editor.hpp] (the editor
    interface) and the command line tool [src/main.cpp].

    Conventions.  A C++ [int] slot is an integer of [Z]; the unsigned
    32-bit arithmetic of the hasher is written with its wrap-around
    ([u32]).  A [size_t] is a natural number of [N] below [2^64] and a
    product of two of them wraps ([size_mul]). *)

From Stdlib Require Import ZArith List Lia Bool Ascii String.
From Stdlib Require Strings.Byte.
From stdpp Require Import gmap list.

Local Open Scope Z_scope.

(** ** The node value type: [oasis::node_t<int>] *)

Module Node.

(** [std::array<int, 8> children], one field per slot. *)
Record node_t : Type := mk_node {
  c0 : Z; c1 : Z; c2 : Z; c3 : Z; c4 : Z; c5 : Z; c6 : Z; c7 : Z
}.

(** The array seen as the sequence of its eight elements, in slot order. *)
Definition children (n : node_t) : list Z :=
  [c0 n; c1 n; c2 n; c3 n; c4 n; c5 n; c6 n; c7 n].

(** [children.size()] *)
Definition children_size : N := 8.

(** [node_t() = default] with [children = {0}], and [node_t::null()]. *)
Definition default_node : node_t := mk_node 0 0 0 0 0 0 0 0.
Definition null : node_t := default_node.

(** The loop of [has_value]: return true at the first child that differs
    from [T()], false when the range is exhausted. *)
Fixpoint has_value_loop (cs : list Z) : bool :=
  match cs with
  | [] => false
  | child :: rest => if negb (child =? 0) then true else has_value_loop rest
  end.

Definition has_value (n : node_t) : bool := has_value_loop (children n).

(** [operator bool()] *)
Definition to_bool (n : node_t) : bool := has_value n.

(** [std::array::operator==]: element by element. *)
Fixpoint array_eqb (l r : list Z) : bool :=
  match l, r with
  | [], [] => true
  | x :: l', y :: r' => (x =? y) && array_eqb l' r'
  | _, _ => false
  end.

(** [node_t::operator==] and [operator!=]. *)
Definition node_eqb (l r : node_t) : bool := array_eqb (children l) (children r).
Definition node_neqb (l r : node_t) : bool := negb (node_eqb l r).

(** The three ways a slot access can end.  [OutOfBoundsRead] is the
    unchecked [children[index]] applied outside the array, which the
    accessor is expected never to reach. *)
Inductive access (A : Type) : Type :=
  | Returns (v : A)
  | ThrowsOutOfRange
  | OutOfBoundsRead.
Arguments Returns {A} v.
Arguments ThrowsOutOfRange {A}.
Arguments OutOfBoundsRead {A}.

(** Unchecked [std::array::operator[]]. *)
Definition array_subscript (cs : list Z) (index : N) : access Z :=
  match cs !! N.to_nat index with
  | Some v => Returns v
  | None => OutOfBoundsRead
  end.

(** [node_t::value(size_t index)]: the guarded access. *)
Definition value (n : node_t) (index : N) : access Z :=
  if (index <? children_size)%N
  then array_subscript (children n) index
  else ThrowsOutOfRange.

(** Assignment through the reference returned by the non-const accessor,
    [n.value(index) = v], for an index inside the array. *)
Definition set_value (n : node_t) (index : N) (v : Z) : node_t :=
  match index with
  | 0%N => mk_node v (c1 n) (c2 n) (c3 n) (c4 n) (c5 n) (c6 n) (c7 n)
  | 1%N => mk_node (c0 n) v (c2 n) (c3 n) (c4 n) (c5 n) (c6 n) (c7 n)
  | 2%N => mk_node (c0 n) (c1 n) v (c3 n) (c4 n) (c5 n) (c6 n) (c7 n)
  | 3%N => mk_node (c0 n) (c1 n) (c2 n) v (c4 n) (c5 n) (c6 n) (c7 n)
  | 4%N => mk_node (c0 n) (c1 n) (c2 n) (c3 n) v (c5 n) (c6 n) (c7 n)
  | 5%N => mk_node (c0 n) (c1 n) (c2 n) (c3 n) (c4 n) v (c6 n) (c7 n)
  | 6%N => mk_node (c0 n) (c1 n) (c2 n) (c3 n) (c4 n) (c5 n) v (c7 n)
  | 7%N => mk_node (c0 n) (c1 n) (c2 n) (c3 n) (c4 n) (c5 n) (c6 n) v
  | _ => n
  end.

(** [node_t(const std::array<T, 8>& nodes)]; a sequence that is not an
    eight-element array is completed with, or cut to, eight slots. *)
Definition node_of_array (nodes : list Z) : node_t :=
  mk_node (nth 0 nodes 0) (nth 1 nodes 0) (nth 2 nodes 0) (nth 3 nodes 0)
          (nth 4 nodes 0) (nth 5 nodes 0) (nth 6 nodes 0) (nth 7 nodes 0).

End Node.

Export Node.

(** ** The hasher: [oasis::murmur_hasher32_t] and [std::hash<node_t<int>>] *)

Module Murmur.

(** Reduction of a mathematical integer to a [uint32_t]. *)
Definition u32 (x : Z) : Z := x mod 2 ^ 32.

(** [reinterpret_cast<const uint32_t*>]: the two's complement reading of
    an [int] as an unsigned word. *)
Definition reinterpret_u32 (v : Z) : Z := v mod 2 ^ 32.

(** One turn of the [for (uint32_t k : word_span)] loop. *)
Definition loop_body (h k : Z) : Z :=
  let k := u32 (k * 0xcc9e2d51) in
  let k := Z.lor (u32 (Z.shiftl k 15)) (Z.shiftr k 17) in
  let k := u32 (k * 0x1b873593) in
  let h := Z.lxor h k in
  let h := Z.lor (u32 (Z.shiftl h 13)) (Z.shiftr h 19) in
  u32 (u32 (h * 5) + 0xe6546b64).

Fixpoint hash_loop (h : Z) (word_span : list Z) : Z :=
  match word_span with
  | [] => h
  | k :: rest => hash_loop (loop_body h k) rest
  end.

(** [murmur_hasher32_t::operator()(std::span<const uint32_t>)] *)
Definition murmur_hasher32 (word_span : list Z) : Z :=
  let h := hash_loop 0 word_span in
  let h := Z.lxor h (u32 (Z.of_nat (length word_span))) in
  let h := Z.lxor h (Z.shiftr h 16) in
  let h := u32 (h * 0x85ebca6b) in
  let h := Z.lxor h (Z.shiftr h 13) in
  let h := u32 (h * 0xc2b2ae35) in
  Z.lxor h (Z.shiftr h 16).

(** [std::hash<oasis::node_t<int>>::operator()]: the hasher applied to
    the eight slots read as unsigned words; the [uint32_t] result is
    widened to [size_t] without change of value. *)
Definition hash (v : node_t) : Z :=
  murmur_hasher32 (map reinterpret_u32 (children v)).

(** *** The schedule of the specification, section 4.2

    Written from the text: a seed, one mixing step per word, a
    finalisation, with a rotation [rotl32] given arithmetically. *)

Definition rotl32 (x r : Z) : Z := (x * 2 ^ r + x / 2 ^ (32 - r)) mod 2 ^ 32.

Definition spec_mix (h k : Z) : Z :=
  let k := (k * 0xcc9e2d51) mod 2 ^ 32 in
  let k := rotl32 k 15 in
  let k := (k * 0x1b873593) mod 2 ^ 32 in
  let h := Z.lxor h k in
  let h := rotl32 h 13 in
  (h * 5 + 0xe6546b64) mod 2 ^ 32.

Definition spec_finalise (h : Z) : Z :=
  let h := Z.lxor h 8 in
  let h := Z.lxor h (Z.shiftr h 16) in
  let h := (h * 0x85ebca6b) mod 2 ^ 32 in
  let h := Z.lxor h (Z.shiftr h 13) in
  let h := (h * 0xc2b2ae35) mod 2 ^ 32 in
  Z.lxor h (Z.shiftr h 16).

Definition spec_hash (n : node_t) : Z :=
  spec_finalise (fold_left spec_mix (map (fun v => v mod 2 ^ 32) (children n)) 0).

End Murmur.

Export Murmur.

(** ** The scene accessors of [oasis/scene.hpp] *)

Module Scene.

(** [size_t] arithmetic: 64 bits, products wrap. *)
Definition size_max : N := 2 ^ 64.
Definition size_mul (a b : N) : N := ((a * b) mod size_max)%N.

(** [indexed_tri_t] *)
Record indexed_tri_t : Type := {
  vertices_idx : list N;
  tex_coord_idx : list N;
  normals_idx : list N;
  material_idx : N
}.

Section WithVec3.

(** [glm::vec3]; the accessors only move vertices around. *)
Variable vec3 : Type.

(** The members of [class scene] that the triangle accessors read. *)
Record scene : Type := {
  m_vertices : list vec3;
  m_indexed_tris : list indexed_tri_t;
  m_triangles : list vec3
}.

Definition vsize {A : Type} (v : list A) : N := N.of_nat (length v).

(** [get_triangles_count] *)
Definition get_triangles_count (s : scene) : N :=
  if negb (vsize (m_indexed_tris s) =? 0)%N
  then vsize (m_indexed_tris s)
  else vsize (m_triangles s).

(** [get_vertices_count] *)
Definition get_vertices_count (s : scene) : N := vsize (m_vertices s).

(** [get_raw_triangles_count] *)
Definition get_raw_triangles_count (s : scene) : N := (vsize (m_triangles s) / 3)%N.

(** [get_triangle]: [std::nullopt], or the three-element span that starts
    at [&m_triangles[id * 3]], given by the elements it covers (fewer than
    three when the span runs past the end of the vector). *)
Definition get_triangle (s : scene) (id : N) : option (list vec3) :=
  if (vsize (m_triangles s) <=? size_mul id 3)%N then None
  else Some (take 3 (drop (N.to_nat (size_mul id 3)) (m_triangles s))).

End WithVec3.

Arguments m_vertices {vec3} s.
Arguments m_indexed_tris {vec3} s.
Arguments m_triangles {vec3} s.
Arguments get_triangles_count {vec3} s.
Arguments get_vertices_count {vec3} s.
Arguments get_raw_triangles_count {vec3} s.
Arguments get_triangle {vec3} s id.

(** A scene with no indexed geometry and one raw triangle, with integer
    coordinates standing for the vertex positions. *)
Definition single_triangle_scene : scene (Z * Z * Z) :=
  {| m_vertices := [];
     m_indexed_tris := [];
     m_triangles := [(0, 0, 0); (1, 0, 0); (0, 1, 0)] |}.

End Scene.

Export Scene.

(** ** The node pool: [oasis::node_pool]

    The class holds one member, [std::vector<node_t<int>> m_nodes]; a pool
    is the sequence of its nodes.  The header declares the operations; the
    bodies of [shift_indexes], [compress] and [deserialize] are part of
    the compiled library and are modelled from the specification.  A
    positive slot [v] designates the node at position [v] of the sequence
    (section 6: every positive slot is strictly less than the count). *)

Module Pool.

(** [node_pool::size()] *)
Definition size (m_nodes : list node_t) : N := N.of_nat (length m_nodes).

(** Keys of [std::unordered_map<node_t<int>, int>]: nodes are compared by
    their slots. *)
#[export] Instance node_eq_dec : EqDecision node_t.
Proof. solve_decision. Defined.

#[export] Instance node_countable : Countable node_t.
Proof. refine (inj_countable' children node_of_array _). by intros []. Defined.

(** A slot is a child index when it is positive. *)
Definition is_child_index (v : Z) : bool := 0 <? v.

Definition map_slots (f : Z -> Z) (n : node_t) : node_t :=
  mk_node (f (c0 n)) (f (c1 n)) (f (c2 n)) (f (c3 n))
          (f (c4 n)) (f (c5 n)) (f (c6 n)) (f (c7 n)).

(** Modelled from the spec: the body of [node_pool::shift_indexes], which
    is not in the sources.  Section 4.1: add the offset to every positive
    child slot of every node; negative and zero slots are untouched. *)
Definition shift_indexes (delta : Z) (m_nodes : list node_t) : list node_t :=
  map (map_slots (fun v => if is_child_index v then v + delta else v)) m_nodes.

(** Modelled from the spec: the state that [compress] maintains while it
    walks the arena (section 4.1): the new arena, the mapping from old
    index to new index, with one entry per old node handled so far, and
    the hash map from node contents to new index. *)
Record walk : Type := {
  new_nodes : list node_t;
  index_map : list Z;
  contents : gmap node_t Z
}.

Definition walk_start : walk :=
  {| new_nodes := []; index_map := []; contents := ∅ |}.

(** Modelled from the spec: the rewriting of a slot in [compress].  A
    positive slot is rewritten through the mapping; a slot whose target
    has not been handled yet has no entry and is kept. *)
Definition rewrite_slot (index_map : list Z) (v : Z) : Z :=
  if is_child_index v
  then match index_map !! Z.to_nat v with
       | Some v' => v'
       | None => v
       end
  else v.

(** Modelled from the spec: what [compress] does for one old node. *)
Definition walk_step (w : walk) (old : node_t) : walk :=
  let n := map_slots (rewrite_slot (index_map w)) old in
  match contents w !! n with
  | Some existing =>
      {| new_nodes := new_nodes w;
         index_map := index_map w ++ [existing];
         contents := contents w |}
  | None =>
      let fresh_index := Z.of_nat (length (new_nodes w)) in
      {| new_nodes := new_nodes w ++ [n];
         index_map := index_map w ++ [fresh_index];
         contents := <[n := fresh_index]> (contents w) |}
  end.

(** Modelled from the spec: the body of [node_pool::compress], which is
    not in the sources.  Section 4.1: walk the nodes from low index to
    high with a mapping old index to new index and a hash map from node
    contents to new index; rewrite the positive slots of each old node
    through the mapping, look the rewritten node up, and either map the
    old index to the node found or append a copy and map to its index. *)
Definition compress (m_nodes : list node_t) : list node_t :=
  new_nodes (fold_left walk_step m_nodes walk_start).

(** What the walk maintains: the new arena has no repeated node, and every
    node of it is a key of the hash map. *)
Definition walk_ok (w : walk) : Prop :=
  NoDup (new_nodes w) /\ forall n, n ∈ new_nodes w -> is_Some (contents w !! n).

(** *** The binary form *)

Inductive byte_order : Type := LittleEndian | BigEndian.

Definition byte_of_Z (v : Z) : Byte.byte :=
  match Byte.of_N (Z.to_N (v mod 256)) with
  | Some b => b
  | None => Byte.x00
  end.

Definition Z_of_byte (b : Byte.byte) : Z := Z.of_N (Byte.to_N b).

(** The [width] low bytes of an unsigned value, least significant first. *)
Fixpoint low_bytes (width : nat) (v : Z) : list Byte.byte :=
  match width with
  | O => []
  | S w => byte_of_Z v :: low_bytes w (v / 256)
  end.

Fixpoint low_bytes_value (bs : list Byte.byte) : Z :=
  match bs with
  | [] => 0
  | b :: rest => Z_of_byte b + 256 * low_bytes_value rest
  end.

(** The object representation of an unsigned integer of [width] bytes. *)
Definition object_bytes (bo : byte_order) (width : nat) (v : Z) : list Byte.byte :=
  match bo with
  | LittleEndian => low_bytes width v
  | BigEndian => rev (low_bytes width v)
  end.

Definition object_value (bo : byte_order) (bs : list Byte.byte) : Z :=
  match bo with
  | LittleEndian => low_bytes_value bs
  | BigEndian => low_bytes_value (rev bs)
  end.

(** [sizeof(size_t)] on the 64-bit hosts the library targets, [sizeof(int)]
    and [sizeof(oasis::node_t<int>)]. *)
Definition sizeof_size_t : nat := 8.
Definition sizeof_int : nat := 4.
Definition sizeof_node : nat := 32.

(** An [int] in memory is its two's complement word. *)
Definition int_bytes (bo : byte_order) (v : Z) : list Byte.byte :=
  object_bytes bo sizeof_int (v mod 2 ^ 32).

Definition int_of_word (u : Z) : Z := if u <? 2 ^ 31 then u else u - 2 ^ 32.

(** The 32 bytes of a node: its array of eight [int]. *)
Definition node_bytes (bo : byte_order) (n : node_t) : list Byte.byte :=
  flat_map (int_bytes bo) (children n).

(** The two [out_file.write] calls of [dag_node_pool::create]: the count
    [get_nodes().size()] as a [size_t], then [get_nodes().data()] for
    [voxel_count * sizeof(node_t<int>)] bytes. *)
Definition serialize (bo : byte_order) (m_nodes : list node_t) : list Byte.byte :=
  let voxel_count := Z.of_N (size m_nodes) in
  object_bytes bo sizeof_size_t (voxel_count mod 2 ^ 64)
  ++ flat_map (node_bytes bo) m_nodes.

(** The validation the format asks of readers: every positive slot is
    strictly less than the count. *)
Definition slots_below (count : Z) (n : node_t) : bool :=
  forallb (fun v => negb (is_child_index v) || (v <? count)) (children n).

(** The values of an [int] and of a [size_t]. *)
Definition is_int (v : Z) : Prop := - 2 ^ 31 <= v < 2 ^ 31.
Definition is_size_t (v : Z) : Prop := 0 <= v < 2 ^ 64.

(** What the C++ types give of an arena in memory: its count is a
    [size_t] and its slots are [int]s. *)
Definition representable (m_nodes : list node_t) : Prop :=
  is_size_t (Z.of_N (size m_nodes))
  /\ Forall (fun n => Forall is_int (children n)) m_nodes.

(** The invariant of section 3: child indices refer to positions of the
    arena. *)
Definition indices_in_range (m_nodes : list node_t) : Prop :=
  Forall (fun n => slots_below (Z.of_N (size m_nodes)) n = true) m_nodes.

(** Cut a byte sequence in consecutive pieces of [width] bytes; [count]
    pieces are taken. *)
Fixpoint pieces (width count : nat) (bs : list Byte.byte) : list (list Byte.byte) :=
  match count with
  | O => []
  | S c => take width bs :: pieces width c (drop width bs)
  end.

Definition node_of_bytes (bo : byte_order) (bs : list Byte.byte) : node_t :=
  node_of_array
    (map (fun w => int_of_word (object_value bo w)) (pieces sizeof_int 8 bs)).

(** Modelled from the spec: the body of [node_pool::deserialize], which is
    not in the sources, applied to the content of the file.  Sections 4.1
    and 6: read the count, then that many node records; reject the file
    when its size is not the size computed from the count, or when a
    positive slot is not below the count. *)
Definition deserialize (bo : byte_order) (file : list Byte.byte) : option (list node_t) :=
  if (length file <? sizeof_size_t)%nat then None
  else
    let count := object_value bo (take sizeof_size_t file) in
    if negb (Z.of_nat (length file) =? Z.of_nat sizeof_size_t + Z.of_nat sizeof_node * count)
    then None
    else
      let records := pieces sizeof_node (Z.to_nat count) (drop sizeof_size_t file) in
      let nodes := map (node_of_bytes bo) records in
      if forallb (slots_below count) nodes then Some nodes else None.

(** An arena with a repeated leaf node, and the root that refers to both
    copies. *)
Definition sample_arena : list node_t :=
  [ mk_node 0 0 0 0 0 0 0 0;
    mk_node (-1) (-1) 0 0 (-1) (-1) 0 0;
    mk_node (-1) (-1) 0 0 (-1) (-1) 0 0;
    mk_node 1 2 0 0 1 2 0 0 ].

End Pool.

Export Pool.

(** ** The editor: [oasis::node_pool_editor]

    [oasis/node_pool_editor.hpp] declares the operations; their bodies are
    part of the compiled library and are modelled from section 4.4 of the
    specification.  The header fixes how the other pool reaches [combine]
    and [subtract]: the parameter is declared [node_pool other], an object
    of its own that is copy-constructed from the caller's argument. *)

Module Editor.

(** The live pool objects, by identity, each with its [m_nodes]. *)
Abbreviation store := (gmap nat (list node_t)).

(** What a member function with one by-value pool parameter works on: the
    receiver [*this] and the parameter object. *)
Record frame : Type := {
  this_nodes : list node_t;
  other_nodes : list node_t
}.

(** The call [self.f(other, ...)] of a member function whose body is
    [body]: the parameter is a new object holding a copy of the argument's
    nodes; the body runs on the receiver and on the parameter; the
    parameter is destroyed when the call returns.  The receiver and the
    argument may be the same object. *)
Definition call_by_value (body : frame -> frame) (self other : nat) (σ : store)
  : option store :=
  this ← σ !! self;
  argument ← σ !! other;
  let parameter := fresh (dom σ) in
  let σ1 := <[parameter := argument]> σ in
  let f := body {| this_nodes := this; other_nodes := argument |} in
  let σ2 := <[self := this_nodes f]> (<[parameter := other_nodes f]> σ1) in
  Some (delete parameter σ2).

(** The root of a pool is its last node. *)
Definition root_index (m_nodes : list node_t) : N := N.pred (size m_nodes).

Section Recursion.

(** The private members [recursive_combine(overwrite, parent_index,
    child_index)] and [recursive_subtract(parent_index, child_index)]:
    declared in the header, bodies not in the sources.  They receive
    indices only, and so act on the receiver's nodes. *)
Variable recursive_combine : bool -> N -> N -> list node_t -> list node_t.
Variable recursive_subtract : N -> N -> list node_t -> list node_t.

(** Modelled from the spec: the body of [node_pool_editor::combine], which
    is not in the sources.  Section 4.4: shift the other pool's positive
    indices by the receiver's size, append its nodes to the receiver, fuse
    from the two roots, and compress when [recompress] is set. *)
Definition combine_body (overwrite recompress : bool) (f : frame) : frame :=
  let r_self := root_index (this_nodes f) in
  let shifted := shift_indexes (Z.of_N (size (this_nodes f))) (other_nodes f) in
  let appended := this_nodes f ++ shifted in
  let fused := recursive_combine overwrite r_self (root_index appended) appended in
  {| this_nodes := if recompress then compress fused else fused;
     other_nodes := shifted |}.

(** Modelled from the spec: the body of [node_pool_editor::subtract], which
    is not in the sources.  Section 4.4: shift and append as for [combine],
    recurse from the two roots, and optionally compress. *)
Definition subtract_body (recompress : bool) (f : frame) : frame :=
  let r_self := root_index (this_nodes f) in
  let shifted := shift_indexes (Z.of_N (size (this_nodes f))) (other_nodes f) in
  let appended := this_nodes f ++ shifted in
  let cut := recursive_subtract r_self (root_index appended) appended in
  {| this_nodes := if recompress then compress cut else cut;
     other_nodes := shifted |}.

(** [self.combine(other, overwrite, recompress)] *)
Definition combine (self other : nat) (overwrite recompress : bool) (σ : store)
  : option store :=
  call_by_value (combine_body overwrite recompress) self other σ.

(** [self.subtract(other, recompress)] *)
Definition subtract (self other : nat) (recompress : bool) (σ : store)
  : option store :=
  call_by_value (subtract_body recompress) self other σ.

End Recursion.

(** An editor operation followed by the recompression it ends with. *)
Definition then_recompress (operation : list node_t -> list node_t)
    (m_nodes : list node_t) : list node_t :=
  compress (operation m_nodes).

(** How an operation on one pool ends: a result with the new nodes, or
    the error of an access to a node or slot that does not exist. *)
Inductive outcome (A : Type) : Type :=
  | Done (result : A) (m_nodes : list node_t)
  | IndexOutOfRange.
Arguments Done {A} result m_nodes.
Arguments IndexOutOfRange {A}.

(** [node_pool::get_node(index)] on a pool given by its nodes. *)
Definition get_node (m_nodes : list node_t) (index : N) : option node_t :=
  m_nodes !! N.to_nat index.

(** A slot of the parent, when both the parent and the slot exist. *)
Definition parent_slot (m_nodes : list node_t) (parent_index child_index : N)
  : option Z :=
  parent ← get_node m_nodes parent_index;
  match value parent child_index with
  | Returns v => Some v
  | _ => None
  end.

(** Write [v] in slot [child_index] of the node at [parent_index]. *)
Definition set_parent_slot (m_nodes : list node_t) (parent_index child_index : N)
    (v : Z) : list node_t :=
  match get_node m_nodes parent_index with
  | Some parent => <[N.to_nat parent_index := set_value parent child_index v]> m_nodes
  | None => m_nodes
  end.

(** The arena after a successful edit: one node more, the new node at the
    returned index, the parent's slot pointing at it, the other seven
    slots of the parent as they were, and the nodes other than the parent
    as they were. *)
Definition appended_under (m_nodes m' : list node_t) (parent_index child_index : N)
    (new_index : N) (n : node_t) : Prop :=
  new_index = size m_nodes
  /\ size m' = (size m_nodes + 1)%N
  /\ get_node m' new_index = Some n
  /\ parent_slot m' parent_index child_index = Some (Z.of_N new_index)
  /\ (forall parent, get_node m_nodes parent_index = Some parent ->
       exists parent',
         get_node m' parent_index = Some parent'
         /\ forall j : N, j <> child_index -> value parent' j = value parent j)
  /\ forall i, i <> parent_index -> (i < size m_nodes)%N ->
       get_node m' i = get_node m_nodes i.

(** Modelled from the spec: the body of
    [node_pool_editor::duplicate_child], which is not in the sources.
    Section 4.4: copy the node referenced by the parent's slot, which must
    be a positive index, to the end of the arena; update the parent slot
    to point at the copy; return the new index.  Not found when the slot
    is not a positive index. *)
Definition duplicate_child (parent_index child_index : N) (m_nodes : list node_t)
  : outcome (option N) :=
  match parent_slot m_nodes parent_index child_index with
  | None => IndexOutOfRange
  | Some slot =>
      if is_child_index slot then
        match get_node m_nodes (Z.to_N slot) with
        | None => IndexOutOfRange
        | Some child =>
            let new_index := size m_nodes in
            Done (Some new_index)
                 (set_parent_slot (m_nodes ++ [child]) parent_index child_index
                                  (Z.of_N new_index))
        end
      else Done None m_nodes
  end.

(** Modelled from the spec: the body of
    [node_pool_editor::subdivide_child], which is not in the sources.
    Section 4.4: append a new node whose eight slots all equal the current
    value of the parent's slot; update the parent slot to the new node's
    index; return it; when the original child was a leaf, the new node is
    an internal node with eight identical leaf children, which is what
    [subtract] asks of it for a leaf of the receiver.  The header: no
    index is returned when the child does not exist, that is, for an
    empty slot. *)
Definition subdivide_child (parent_index child_index : N) (m_nodes : list node_t)
  : outcome (option N) :=
  match parent_slot m_nodes parent_index child_index with
  | None => IndexOutOfRange
  | Some slot =>
      if slot =? 0 then Done None m_nodes
      else
        let new_index := size m_nodes in
        let n := mk_node slot slot slot slot slot slot slot slot in
        Done (Some new_index)
             (set_parent_slot (m_nodes ++ [n]) parent_index child_index
                              (Z.of_N new_index))
  end.

(** Two pools: object 1 holds [sample_arena], object 2 a single leaf
    node. *)
Definition sample_store : store :=
  <[1%nat := sample_arena]> (<[2%nat := [mk_node (-1) (-1) (-1) (-1) 0 0 0 0]]> ∅).

End Editor.

Export Editor.

(** ** More of [oasis/node_pool.hpp]: writing a slot, the two-word hasher *)

Module NodeAccess.

(** [n.value(index) = v] through [T& value(size_t index)]: the guard of
    the accessor comes first, and nothing is written when it throws. *)
Definition assign_value (n : node_t) (index : N) (v : Z) : access node_t :=
  if (index <? children_size)%N
  then Returns (set_value n index v)
  else ThrowsOutOfRange.

(** Reduction of a mathematical integer to a [uint64_t]. *)
Definition u64 (x : Z) : Z := x mod 2 ^ 64.

(** The value of [h] at the [return] of
    [murmur_hasher32_t::operator()(std::span<const uint32_t, 2>)]. *)
Definition mix64 (word0 word1 : Z) : Z :=
  let h := Z.lor word0 (u64 (Z.shiftl word1 32)) in
  let h := Z.lxor h (Z.shiftr h 33) in
  let h := u64 (h * 0xff51afd7ed558ccd) in
  let h := Z.lxor h (Z.shiftr h 33) in
  let h := u64 (h * 0xc4ceb9fe1a85ec53) in
  Z.lxor h (Z.shiftr h 33).

(** The overload for two words: the [uint64_t] is returned as a
    [uint32_t]. *)
Definition murmur_hasher32_pair (word0 word1 : Z) : Z := u32 (mix64 word0 word1).

(** A [uint32_t]. *)
Definition is_u32 (v : Z) : Prop := 0 <= v < 2 ^ 32.

End NodeAccess.

Export NodeAccess.

(** ** More of [oasis/scene.hpp]: the indexed accessors and the textures *)

Module SceneAccess.

(** Unchecked [std::vector::operator[]] and [std::array::operator[]]. *)
Definition vector_at {A : Type} (v : list A) (i : N) : access A :=
  match v !! N.to_nat i with
  | Some x => Returns x
  | None => OutOfBoundsRead
  end.

(** Sequencing of accesses: the first one that does not return ends the
    evaluation. *)
Definition and_then {A B : Type} (a : access A) (k : A -> access B) : access B :=
  match a with
  | Returns x => k x
  | ThrowsOutOfRange => ThrowsOutOfRange
  | OutOfBoundsRead => OutOfBoundsRead
  end.

(** [get_triangle_ptr]: the null pointer, or the pointer
    [&m_triangles[id * 3]] given by the position it points at. *)
Definition get_triangle_ptr {vec3 : Type} (s : scene vec3) (id : N) : option N :=
  if (size_mul id 3 <? vsize (m_triangles s))%N
  then Some (size_mul id 3)
  else None.

(** [get_triangle_material_id]: the guarded read of the material index. *)
Definition get_triangle_material_id {vec3 : Type} (s : scene vec3) (id_tri : N)
  : access N :=
  if (id_tri <? vsize (m_indexed_tris s))%N
  then and_then (vector_at (m_indexed_tris s) id_tri) (fun t => Returns (material_idx t))
  else Returns 0%N.

(** The three reads [v[idx[0]]], [v[idx[1]]], [v[idx[2]]] that
    [get_triangle_vertices], [get_triangle_normals] and
    [get_triangle_tex_coords] make, in this order, through an index array
    of the triangle [m_indexed_tris[id_tri]]. *)
Definition gather {vec3 A : Type} (s : scene vec3) (idx : indexed_tri_t -> list N)
    (v : list A) (id_tri : N) : access (A * A * A) :=
  and_then (vector_at (m_indexed_tris s) id_tri) (fun t0 =>
  and_then (vector_at (idx t0) 0) (fun i0 =>
  and_then (vector_at v i0) (fun x0 =>
  and_then (vector_at (m_indexed_tris s) id_tri) (fun t1 =>
  and_then (vector_at (idx t1) 1) (fun i1 =>
  and_then (vector_at v i1) (fun x1 =>
  and_then (vector_at (m_indexed_tris s) id_tri) (fun t2 =>
  and_then (vector_at (idx t2) 2) (fun i2 =>
  and_then (vector_at v i2) (fun x2 =>
  Returns (x0, x1, x2)))))))))).

(** [get_triangle_vertices] *)
Definition get_triangle_vertices {vec3 : Type} (s : scene vec3) (id_tri : N)
  : access (vec3 * vec3 * vec3) :=
  gather s vertices_idx (m_vertices s) id_tri.

(** [is_triangle_textured]: the three tests are joined by [&&], so a test
    is only made when the ones before it succeeded. *)
Definition is_triangle_textured {vec3 : Type} (s : scene vec3) (id_tri : N)
  : access bool :=
  and_then (vector_at (m_indexed_tris s) id_tri) (fun t0 =>
  and_then (vector_at (tex_coord_idx t0) 0) (fun i0 =>
  if negb (i0 =? 0)%N then
    and_then (vector_at (m_indexed_tris s) id_tri) (fun t1 =>
    and_then (vector_at (tex_coord_idx t1) 1) (fun i1 =>
    if negb (i1 =? 0)%N then
      and_then (vector_at (m_indexed_tris s) id_tri) (fun t2 =>
      and_then (vector_at (tex_coord_idx t2) 2) (fun i2 =>
      Returns (negb (i2 =? 0)%N)))
    else Returns false))
  else Returns false)).

Section WithTextures.

Variables vec3 vec2 image : Type.

(** [material_t], with the fields the accessors read. *)
Record material_t : Type := {
  name : string;
  texture : string;
  diffuse_color : vec3
}.

(** The members of [class scene] beside the geometry. *)
Record scene_data : Type := {
  geometry : scene vec3;
  m_normals : list vec3;
  m_materials : list material_t;
  m_tex_coords : list vec2;
  m_textures : gmap string image
}.

(** [get_triangle_normals] and [get_triangle_tex_coords] *)
Definition get_triangle_normals (d : scene_data) (id_tri : N)
  : access (vec3 * vec3 * vec3) :=
  gather (geometry d) normals_idx (m_normals d) id_tri.

Definition get_triangle_tex_coords (d : scene_data) (id_tri : N)
  : access (vec2 * vec2 * vec2) :=
  gather (geometry d) tex_coord_idx (m_tex_coords d) id_tri.

(** [get_triangle_color]: the material is read without a check. *)
Definition get_triangle_color (d : scene_data) (id_tri : N) : access vec3 :=
  and_then (get_triangle_material_id (geometry d) id_tri) (fun id =>
  and_then (vector_at (m_materials d) id) (fun m =>
  Returns (diffuse_color m))).

(** [CImg<unsigned char> texture(path)] followed by the conversion to the
    stored image: the image decoder is not part of these sources; it gives
    an image or throws. *)
Variable read_image : string -> option image.

(** [std::replace(texPath.begin(), texPath.end(), '\\', '/')] *)
Fixpoint replace_backslash (s : string) : string :=
  match s with
  | EmptyString => EmptyString
  | String c rest =>
      String (if Ascii.eqb c "\"%char then "/"%char else c) (replace_backslash rest)
  end.

(** How [load_textures] ends: it returns its boolean, or the decoder's
    exception leaves it; either way with the textures stored so far. *)
Inductive load_outcome : Type :=
  | Loaded (result : bool) (textures : gmap string image)
  | LoadRaised (textures : gmap string image).

(** The [for (const auto & material : m_materials)] loop of
    [load_textures], from the value [matIndex] has before a turn. *)
Fixpoint load_loop (path : string) (materials : list material_t) (matIndex : Z)
    (textures : gmap string image) : Z * gmap string image + gmap string image :=
  match materials with
  | [] => inl (matIndex, textures)
  | material :: rest =>
      let matIndex := matIndex + 1 in
      if matIndex =? 0 then load_loop path rest matIndex textures
      else
        let texName := texture material in
        if (3 <? String.length texName)%nat
           && bool_decide (textures !! texName = None)
        then
          let texPath := replace_backslash (path ++ "/" ++ texName)%string in
          match read_image texPath with
          | Some img => load_loop path rest matIndex (<[texName := img]> textures)
          | None => inr textures
          end
        else load_loop path rest matIndex textures
  end.

(** [load_textures(path)] *)
Definition load_textures (d : scene_data) (path : string) : load_outcome :=
  match load_loop path (m_materials d) (-1) (m_textures d) with
  | inl (matIndex, textures) =>
      if matIndex =? -1 then Loaded false textures else Loaded true textures
  | inr textures => LoadRaised textures
  end.

(** The scene once [load_textures] has stored its textures in
    [m_textures]; the other members are not written. *)
Definition with_textures (d : scene_data) (textures : gmap string image) : scene_data :=
  {| geometry := geometry d;
     m_normals := m_normals d;
     m_materials := m_materials d;
     m_tex_coords := m_tex_coords d;
     m_textures := textures |}.

(** The file asked of the decoder for a texture name. *)
Definition texture_path (path texName : string) : string :=
  replace_backslash (path ++ "/" ++ texName)%string.

(** The textures a run of the loop ends with, when it returns and when it
    is left by an exception. *)
Definition loop_textures (r : Z * gmap string image + gmap string image)
  : gmap string image :=
  match r with
  | inl (_, textures) => textures
  | inr textures => textures
  end.

(** The textures the scene holds after the call. *)
Definition textures_after (o : load_outcome) : gmap string image :=
  match o with
  | Loaded _ textures => textures
  | LoadRaised textures => textures
  end.

End WithTextures.

Arguments name {vec3} m.
Arguments texture {vec3} m.
Arguments diffuse_color {vec3} m.
Arguments geometry {vec3 vec2 image} s.
Arguments m_normals {vec3 vec2 image} s.
Arguments m_materials {vec3 vec2 image} s.
Arguments m_tex_coords {vec3 vec2 image} s.
Arguments m_textures {vec3 vec2 image} s.
Arguments get_triangle_normals {vec3 vec2 image} d id_tri.
Arguments get_triangle_tex_coords {vec3 vec2 image} d id_tri.
Arguments get_triangle_color {vec3 vec2 image} d id_tri.
Arguments load_loop {vec3 image} read_image path materials matIndex textures.
Arguments load_textures {vec3 vec2 image} read_image d path.
Arguments Loaded {image} result textures.
Arguments LoadRaised {image} textures.
Arguments textures_after {image} o.
Arguments loop_textures {image} r.
Arguments with_textures {vec3 vec2 image} d textures.

(** A scene with two indexed triangles on four vertices, and its
    materials: the default material and one with a texture file. *)
Definition sample_indexed_scene : scene (Z * Z * Z) :=
  {| m_vertices := [(0, 0, 0); (1, 0, 0); (0, 1, 0); (1, 1, 0)];
     m_indexed_tris :=
       [ {| vertices_idx := [0; 1; 2]%N; tex_coord_idx := [0; 0; 0]%N;
            normals_idx := [0; 0; 0]%N; material_idx := 1%N |};
         {| vertices_idx := [1; 3; 2]%N; tex_coord_idx := [1; 3; 2]%N;
            normals_idx := [0; 0; 0]%N; material_idx := 0%N |} ];
     m_triangles := [] |}.

Definition sample_scene_data : scene_data (Z * Z * Z) (Z * Z) nat :=
  {| geometry := sample_indexed_scene;
     m_normals := [(0, 0, 1)];
     m_materials :=
       [ {| name := "default"; texture := "skip.png"; diffuse_color := (1, 1, 1) |};
         {| name := "brick"; texture := "tex\brick.png"; diffuse_color := (2, 0, 0) |};
         {| name := "flat"; texture := ""; diffuse_color := (0, 0, 3) |} ];
     m_tex_coords := [(0, 0); (1, 0); (0, 1); (1, 1)];
     m_textures := ∅ |}.

(** The same scene with one texture already stored. *)
Definition sample_scene_data_textured : scene_data (Z * Z * Z) (Z * Z) nat :=
  {| geometry := sample_indexed_scene;
     m_normals := m_normals sample_scene_data;
     m_materials := m_materials sample_scene_data;
     m_tex_coords := m_tex_coords sample_scene_data;
     m_textures := {[ "wood.png"%string := 3%nat ]} |}.

(** A scene that has a texture and no material. *)
Definition sample_scene_data_bare : scene_data (Z * Z * Z) (Z * Z) nat :=
  {| geometry := sample_indexed_scene;
     m_normals := [];
     m_materials := [];
     m_tex_coords := [];
     m_textures := {[ "wood.png"%string := 3%nat ]} |}.

(** A decoder that knows one file, and one that knows none. *)
Definition sample_read_image (path : string) : option nat :=
  if String.eqb path "assets/tex/brick.png" then Some 7%nat else None.

Definition failing_read_image (path : string) : option nat := None.

End SceneAccess.

Export SceneAccess.

(** ** The command line tool: [dag_node_pool::create] and [main] *)

Module Cli.

Local Open Scope string_scope.

(** How a call into the library ends: it returns, or an exception leaves
    it. *)
Inductive build_outcome : Type :=
  | Built (m_nodes : list node_t)
  | BuildRaised.

(** How a call of [create] ends: it returns its boolean, with the content
    written to the output file if any, or an exception passes through. *)
Inductive create_outcome : Type :=
  | Created (result : bool) (written : option (list Byte.byte))
  | CreateRaised.

(** How the process ends: [main] returns a code, or an exception that
    nothing catches terminates it. *)
Inductive exit_status : Type :=
  | Exited (code : Z)
  | Terminated.

Section WithHost.

Variables vec3 vec2 image : Type.

(** What the tool takes from outside this file: the scene loader
    ([scene::load], which fails or fills the scene), the directory part of
    a path ([std::filesystem::path::parent_path]), the image decoder that
    [load_textures] calls, which gives an image or throws, the builder
    ([node_pool_builder::build] on an empty pool, whose corner and size
    arguments are computed from the bounds of the scene), whether
    [std::ofstream] can open the output file, the C library's [atoi], and
    the byte order of the host. *)
Record host : Type := {
  scene_load : string -> option (scene_data vec3 vec2 image);
  parent_path : string -> string;
  decode_image : string -> option image;
  build : scene_data vec3 vec2 image -> Z -> build_outcome;
  ofstream_open : string -> bool;
  atoi : string -> Z;
  host_order : byte_order
}.

(** Conversion of the [int] argument to the [uint8_t] parameter. *)
Definition to_uint8 (v : Z) : Z := v mod 2 ^ 8.

(** [dag_node_pool::create(filename, out_filename, depth)].  After the
    load, [scene.load_textures(input_dir)] runs on the scene: its boolean
    only decides a message, and an exception of the decoder is caught
    neither here nor in [main].  The builder then works on the scene with
    its textures.  The timing and the node count are only printed. *)
Definition create (h : host) (filename out_filename : string) (depth : Z)
  : create_outcome :=
  match scene_load h filename with
  | None => Created false None
  | Some sc =>
      let input_dir := parent_path h filename in
      match load_textures (decode_image h) sc input_dir with
      | LoadRaised _ => CreateRaised
      | Loaded _ textures =>
          match build h (with_textures sc textures) depth with
          | BuildRaised => CreateRaised
          | Built m_nodes =>
              if ofstream_open h out_filename
              then Created true (Some (serialize (host_order h) m_nodes))
              else Created true None
          end
      end
  end.

(** [main(argc, argv)], with [argv] the list of its [argc] strings. *)
Definition main (h : host) (argv : list string) : exit_status :=
  if (Z.of_nat (length argv) <? 4)%Z then Exited 1
  else
    let filename := nth 1 argv "" in
    let out_filename := nth 2 argv "" in
    let depth := atoi h (nth 3 argv "") in
    match create h filename out_filename (to_uint8 depth) with
    | CreateRaised => Terminated
    | Created false _ => Exited 1
    | Created true _ => Exited 0
    end.

End WithHost.

Arguments scene_load {vec3 vec2 image} h.
Arguments parent_path {vec3 vec2 image} h.
Arguments decode_image {vec3 vec2 image} h.
Arguments build {vec3 vec2 image} h.
Arguments ofstream_open {vec3 vec2 image} h.
Arguments atoi {vec3 vec2 image} h.
Arguments host_order {vec3 vec2 image} h.
Arguments create {vec3 vec2 image} h filename out_filename depth.
Arguments main {vec3 vec2 image} h argv.

(** The depths a build accepts, section 7. *)
Definition valid_depth (d : Z) : Prop := (1 <= d <= 31)%Z.

(** A reading of [atoi] for plain decimal arguments: blanks, a sign,
    digits up to the first character that is not one. *)
Definition digit_of (c : Ascii.ascii) : option Z :=
  let n := Z.of_nat (Ascii.nat_of_ascii c) in
  if ((48 <=? n) && (n <=? 57))%Z then Some (n - 48)%Z else None.

Fixpoint digits_value (acc : Z) (s : string) : Z :=
  match s with
  | EmptyString => acc
  | String c rest =>
      match digit_of c with
      | Some d => digits_value (10 * acc + d)%Z rest
      | None => acc
      end
  end.

Fixpoint skip_blanks (s : string) : string :=
  match s with
  | String " "%char rest => skip_blanks rest
  | _ => s
  end.

Definition decimal_atoi (s : string) : Z :=
  match skip_blanks s with
  | String "-"%char rest => (- digits_value 0 rest)%Z
  | String "+"%char rest => digits_value 0 rest
  | rest => digits_value 0 rest
  end.

(** A host on which everything works: the mesh file loads, its texture
    file decodes, the builder returns an arena, the output file opens. *)
Definition sample_host : host (Z * Z * Z) (Z * Z) nat :=
  {| scene_load := fun f =>
       if String.eqb f "assets/mesh.obj" then Some sample_scene_data else None;
     parent_path := fun f => if String.eqb f "assets/mesh.obj" then "assets" else "";
     decode_image := sample_read_image;
     build := fun _ _ => Built sample_arena;
     ofstream_open := fun _ => true;
     atoi := decimal_atoi;
     host_order := LittleEndian |}.

(** The same host with an output path that cannot be opened. *)
Definition read_only_host : host (Z * Z * Z) (Z * Z) nat :=
  {| scene_load := scene_load sample_host;
     parent_path := parent_path sample_host;
     decode_image := sample_read_image;
     build := build sample_host;
     ofstream_open := fun _ => false;
     atoi := decimal_atoi;
     host_order := LittleEndian |}.

(** The same host with a builder that throws. *)
Definition raising_builder_host : host (Z * Z * Z) (Z * Z) nat :=
  {| scene_load := scene_load sample_host;
     parent_path := parent_path sample_host;
     decode_image := sample_read_image;
     build := fun _ _ => BuildRaised;
     ofstream_open := fun _ => true;
     atoi := decimal_atoi;
     host_order := LittleEndian |}.

(** The same host with a texture file that does not decode. *)
Definition broken_texture_host : host (Z * Z * Z) (Z * Z) nat :=
  {| scene_load := scene_load sample_host;
     parent_path := parent_path sample_host;
     decode_image := failing_read_image;
     build := build sample_host;
     ofstream_open := fun _ => true;
     atoi := decimal_atoi;
     host_order := LittleEndian |}.

End Cli.

Export Cli.

(** * Properties *)

(** ** Node equality, null nodes and slot access *)

Lemma node_of_array_children (n : node_t) : node_of_array (children n) = n.
Proof. by destruct n. Qed.

Lemma array_eqb_eq (l r : list Z) : array_eqb l r = true <-> l = r.
Proof.
  revert r; induction l as [|x l IH]; intros [|y r]; simpl; try (split; congruence).
  rewrite andb_true_iff, Z.eqb_eq, IH. split.
  - intros [-> ->]; reflexivity.
  - intros [= -> ->]; split; reflexivity.
Qed.

Lemma children_inj (a b : node_t) : children a = children b -> a = b.
Proof. destruct a, b; unfold children; simpl; congruence. Qed.

Lemma node_eqb_eq (a b : node_t) : node_eqb a b = true <-> a = b.
Proof.
  unfold node_eqb. rewrite array_eqb_eq. split.
  - apply children_inj.
  - intros ->; reflexivity.
Qed.

Lemma node_eqb_false (a b : node_t) : node_eqb a b = false <-> a <> b.
Proof.
  rewrite <- node_eqb_eq. destruct (node_eqb a b); split; congruence.
Qed.

Lemma has_value_loop_false (cs : list Z) :
  has_value_loop cs = false <-> Forall (fun v => v = 0) cs.
Proof.
  induction cs as [|c cs IH]; simpl.
  - split; [constructor | reflexivity].
  - destruct (Z.eqb_spec c 0) as [->|Hc]; simpl.
    + rewrite IH. split; [by constructor | by inversion 1].
    + split; [discriminate | inversion 1; contradiction].
Qed.

(** C10. [has_value] (and with it the conversion to [bool]) answers false
    exactly for the node that equals [node_t::null()], that is, exactly
    when the eight slots are all zero. *)
Theorem has_value_false_iff_null (n : node_t) :
  (has_value n = false <-> node_eqb n null = true)
  /\ (has_value n = false <-> Forall (fun v => v = 0) (children n))
  /\ to_bool n = has_value n.
Proof.
  assert (Hz : Forall (fun v => v = 0) (children n) <-> n = null).
  { split.
    - intros H. apply children_inj. destruct n as [a0 a1 a2 a3 a4 a5 a6 a7].
      unfold children in *; simpl in *.
      repeat match goal with
             | H : Forall _ (_ :: _) |- _ => inversion H; subst; clear H
             end.
      reflexivity.
    - intros ->. unfold children; simpl. repeat constructor. }
  unfold has_value. rewrite has_value_loop_false, node_eqb_eq.
  repeat split; tauto.
Qed.

(** C9. [value(index)] returns the slot [children[index]] for an index
    below eight, throws [std::out_of_range] for every other index, and in
    no case reads outside the eight-element array. *)
Theorem value_guarded (n : node_t) (index : N) :
  ((index < 8)%N ->
     exists v, children n !! N.to_nat index = Some v /\ value n index = Returns v)
  /\ ((8 <= index)%N -> value n index = ThrowsOutOfRange)
  /\ value n index <> OutOfBoundsRead.
Proof.
  unfold value, children_size, array_subscript.
  destruct (N.ltb_spec index 8) as [Hlt|Hge].
  - assert (Hlen : (N.to_nat index < length (children n))%nat) by (simpl; lia).
    apply lookup_lt_is_Some_2 in Hlen as [v Hv]. rewrite Hv.
    split; [|split]; [eauto | lia | discriminate].
  - split; [|split]; [lia | reflexivity | discriminate].
Qed.

Lemma value_guarded_witness :
  (exists v, children (mk_node 5 (-1) 0 0 0 0 0 9) !! N.to_nat 7 = Some v
             /\ value (mk_node 5 (-1) 0 0 0 0 0 9) 7 = Returns v)
  /\ value (mk_node 5 (-1) 0 0 0 0 0 9) 8 = ThrowsOutOfRange.
Proof.
  split.
  - apply (value_guarded (mk_node 5 (-1) 0 0 0 0 0 9) 7). reflexivity.
  - apply (value_guarded (mk_node 5 (-1) 0 0 0 0 0 9) 8). discriminate.
Defined.

(** ** The structural hash *)

(** C1. Nodes that compare equal with [operator==] have the same
    [std::hash] value. *)
Theorem equal_nodes_hash_equal (a b : node_t) :
  node_eqb a b = true -> hash a = hash b.
Proof. intros H. apply node_eqb_eq in H. by rewrite H. Qed.

Lemma equal_nodes_hash_equal_witness :
  node_eqb (mk_node 1 2 (-1) 0 0 0 7 0) (mk_node 1 2 (-1) 0 0 0 7 0) = true
  /\ hash (mk_node 1 2 (-1) 0 0 0 7 0) = hash (mk_node 1 2 (-1) 0 0 0 7 0).
Proof.
  split; [reflexivity | apply equal_nodes_hash_equal; reflexivity].
Defined.

Lemma u32_range (x : Z) : 0 <= u32 x < 2 ^ 32.
Proof. unfold u32. apply Z.mod_pos_bound. lia. Qed.

Lemma lxor_range (a b : Z) :
  0 <= a < 2 ^ 32 -> 0 <= b < 2 ^ 32 -> 0 <= Z.lxor a b < 2 ^ 32.
Proof.
  intros Ha Hb.
  assert (H0 : 0 <= Z.lxor a b) by (apply Z.lxor_nonneg; lia).
  split; [exact H0|].
  destruct (Z.eq_dec (Z.lxor a b) 0) as [->|Hne]; [lia|].
  apply Z.log2_lt_pow2; [lia|].
  pose proof (Z.log2_lxor a b (proj1 Ha) (proj1 Hb)) as Hl.
  assert (Z.log2 a < 32).
  { destruct (Z.eq_dec a 0) as [->|]; [simpl; lia|]. apply Z.log2_lt_pow2; lia. }
  assert (Z.log2 b < 32).
  { destruct (Z.eq_dec b 0) as [->|]; [simpl; lia|]. apply Z.log2_lt_pow2; lia. }
  lia.
Qed.

(** The shift-and-or of the source is the rotation of the specification. *)
Lemma shift_or_is_rotl32 (x r : Z) :
  0 <= x < 2 ^ 32 -> 0 < r < 32 ->
  Z.lor (u32 (Z.shiftl x r)) (Z.shiftr x (32 - r)) = rotl32 x r.
Proof.
  intros Hx Hr. unfold u32, rotl32.
  rewrite Z.shiftl_mul_pow2, Z.shiftr_div_pow2 by lia.
  assert (Hp : 2 ^ 32 = 2 ^ (32 - r) * 2 ^ r) by (rewrite <- Z.pow_add_r by lia; f_equal; lia).
  assert (Hpr : 0 < 2 ^ r) by (apply Z.pow_pos_nonneg; lia).
  assert (Hps : 0 < 2 ^ (32 - r)) by (apply Z.pow_pos_nonneg; lia).
  assert (Hhi : (x * 2 ^ r) mod 2 ^ 32 = (x mod 2 ^ (32 - r)) * 2 ^ r).
  { rewrite Hp. rewrite Z.mul_mod_distr_r by lia. reflexivity. }
  assert (Hlo : 0 <= x / 2 ^ (32 - r) < 2 ^ r).
  { split; [apply Z.div_pos; lia|]. apply Z.div_lt_upper_bound; lia. }
  assert (Hm : 0 <= x mod 2 ^ (32 - r) < 2 ^ (32 - r)) by (apply Z.mod_pos_bound; lia).
  assert (Hland : Z.land ((x * 2 ^ r) mod 2 ^ 32) (x / 2 ^ (32 - r)) = 0).
  { rewrite Hhi. apply Z.bits_inj'. intros i Hi.
    rewrite Z.land_spec, Z.bits_0.
    destruct (Z.lt_ge_cases i r) as [Hlt|Hge].
    - rewrite Z.mul_pow2_bits_low by lia. reflexivity.
    - rewrite andb_comm.
      destruct (Z.eq_dec (x / 2 ^ (32 - r)) 0) as [->|Hne];
        [rewrite Z.bits_0; reflexivity|].
      rewrite (Z.bits_above_log2 (x / 2 ^ (32 - r)) i); [reflexivity | lia |].
      assert (Z.log2 (x / 2 ^ (32 - r)) < r) by (apply Z.log2_lt_pow2; lia).
      lia. }
  pose proof (Z.add_lor_land ((x * 2 ^ r) mod 2 ^ 32) (x / 2 ^ (32 - r))) as Hadd.
  rewrite Hland, Z.add_0_r in Hadd. rewrite Hadd.
  rewrite <- (Z.mod_small ((x * 2 ^ r) mod 2 ^ 32 + x / 2 ^ (32 - r)) (2 ^ 32)).
  - rewrite Z.add_mod_idemp_l by lia. reflexivity.
  - rewrite Hhi. split; [nia|]. rewrite Hp. nia.
Qed.

(** The arithmetic [rotl32] moves every bit of a 32-bit word [r] places
    up, around the word. *)
Lemma rotl32_testbit (x r i : Z) :
  0 <= x < 2 ^ 32 -> 0 < r < 32 -> 0 <= i < 32 ->
  Z.testbit (rotl32 x r) i = Z.testbit x ((i - r) mod 32).
Proof.
  intros Hx Hr Hi. rewrite <- (shift_or_is_rotl32 x r Hx Hr). unfold u32.
  rewrite Z.lor_spec, Z.shiftl_mul_pow2, Z.shiftr_div_pow2 by lia.
  rewrite Z.mod_pow2_bits_low by lia.
  rewrite Z.div_pow2_bits by lia.
  destruct (Z.lt_ge_cases i r) as [Hlt|Hge].
  - rewrite Z.mul_pow2_bits_low by lia. simpl. f_equal.
    apply (Z.mod_unique_pos _ _ (-1)); lia.
  - rewrite Z.mul_pow2_bits by lia. rewrite Z.mod_small by lia.
    destruct (Z.eq_dec x 0) as [->|Hx0]; [by rewrite !Z.bits_0|].
    rewrite (Z.bits_above_log2 x (i + (32 - r))); [apply orb_false_r | lia |].
    assert (Z.log2 x < 32) by (apply Z.log2_lt_pow2; lia). lia.
Qed.

Lemma loop_body_range (h k : Z) : 0 <= loop_body h k < 2 ^ 32.
Proof. unfold loop_body. apply u32_range. Qed.

Lemma loop_body_spec (h k : Z) :
  0 <= h < 2 ^ 32 -> loop_body h k = spec_mix h k.
Proof.
  intros Hh. unfold loop_body, spec_mix.
  change 17 with (32 - 15). change 19 with (32 - 13).
  pose proof (u32_range (k * 0xcc9e2d51)) as Hk1.
  rewrite (shift_or_is_rotl32 (u32 (k * 0xcc9e2d51)) 15) by (auto; lia).
  set (k2 := u32 (rotl32 (u32 (k * 0xcc9e2d51)) 15 * 0x1b873593)).
  assert (Hk2 : 0 <= k2 < 2 ^ 32) by apply u32_range.
  rewrite (shift_or_is_rotl32 (Z.lxor h k2) 13) by (auto using lxor_range; lia).
  unfold u32. rewrite Z.add_mod_idemp_l by lia. reflexivity.
Qed.

Lemma hash_loop_fold (ws : list Z) (h : Z) :
  0 <= h < 2 ^ 32 ->
  hash_loop h ws = fold_left spec_mix ws h /\ 0 <= hash_loop h ws < 2 ^ 32.
Proof.
  revert h; induction ws as [|k ws IH]; intros h Hh; simpl.
  - split; [reflexivity | exact Hh].
  - rewrite <- (loop_body_spec h k Hh). apply IH, loop_body_range.
Qed.

(** C2. The [std::hash] of a node is the value of the schedule of section
    4.2: seed zero, one mixing step per slot word in slot order, and the
    finalisation that starts with [h ^= 8]. *)
Theorem hash_is_spec_schedule (n : node_t) : hash n = spec_hash n.
Proof.
  unfold hash, spec_hash, murmur_hasher32, spec_finalise.
  destruct (hash_loop_fold (map reinterpret_u32 (children n)) 0) as [Hf _]; [lia|].
  rewrite Hf. reflexivity.
Qed.

(** ** The triangle accessors *)

(** [get_triangle] goes with [get_raw_triangles_count]: on a raw list made
    of whole triangles it answers for exactly the indices below that
    count, as long as three times the index fits a [size_t]. *)
Lemma get_triangle_raw_count {vec3 : Type} (s : scene vec3) (id : N) :
  (vsize (m_triangles s) mod 3 = 0)%N ->
  (id * 3 < size_max)%N ->
  (id < get_raw_triangles_count s)%N <->
  exists v0 v1 v2, get_triangle s id = Some [v0; v1; v2].
Proof.
  intros Hwhole Hfit. unfold get_triangle, get_raw_triangles_count, size_mul.
  rewrite N.mod_small by exact Hfit.
  assert (Hdm : vsize (m_triangles s) = (3 * (vsize (m_triangles s) / 3))%N).
  { rewrite (N.div_mod (vsize (m_triangles s)) 3) at 1 by lia. lia. }
  destruct (N.leb_spec (vsize (m_triangles s)) (id * 3)) as [Hle|Hlt].
  - split; [lia | intros (? & ? & ? & [=])].
  - split; [intros _ | lia].
    unfold vsize in *.
    assert (Hlen : (3 <= length (drop (N.to_nat (id * 3)) (m_triangles s)))%nat).
    { rewrite length_drop. lia. }
    destruct (drop (N.to_nat (id * 3)) (m_triangles s)) as [|v0 [|v1 [|v2 rest]]];
      simpl in Hlen; try lia.
    exists v0, v1, v2. reflexivity.
Qed.

(** C7, at a scene that holds one raw triangle and no indexed geometry:
    [get_triangles_count] answers 3, the number of vertices, where the
    sibling [get_raw_triangles_count] answers 1; [get_triangle] has a
    triangle at index 0 only, so indices 1 and 2 are below the count and
    yet get [std::nullopt]. *)
Theorem triangle_count_counts_vertices :
  get_triangles_count single_triangle_scene = 3%N
  /\ get_raw_triangles_count single_triangle_scene = 1%N
  /\ get_triangle single_triangle_scene 0 = Some [(0, 0, 0); (1, 0, 0); (0, 1, 0)]
  /\ get_triangle single_triangle_scene 1 = None
  /\ get_triangle single_triangle_scene 2 = None.
Proof. repeat split; reflexivity. Qed.

(** ** Compression *)

Lemma walk_start_ok : walk_ok walk_start.
Proof.
  split; simpl.
  - constructor.
  - intros n Hn. by apply not_elem_of_nil in Hn.
Qed.

Lemma walk_step_ok (w : walk) (old : node_t) : walk_ok w -> walk_ok (walk_step w old).
Proof.
  intros [Hnd Hkeys]. unfold walk_step.
  set (n := map_slots (rewrite_slot (index_map w)) old).
  destruct (contents w !! n) as [existing|] eqn:Hlook; split; simpl; auto.
  - apply NoDup_app. split; [exact Hnd|]. split.
    + intros x Hx Hin. apply list_elem_of_singleton in Hin as ->.
      apply Hkeys in Hx as [? Hx]. congruence.
    + apply NoDup_singleton.
  - intros x Hx. apply elem_of_app in Hx as [Hx|Hx].
    + destruct (decide (n = x)) as [->|Hne].
      * rewrite lookup_insert_eq. eauto.
      * rewrite lookup_insert_ne by exact Hne. auto.
    + apply list_elem_of_singleton in Hx as ->. rewrite lookup_insert_eq. eauto.
Qed.

Lemma walk_fold_ok (m_nodes : list node_t) (w : walk) :
  walk_ok w -> walk_ok (fold_left walk_step m_nodes w).
Proof.
  revert w; induction m_nodes as [|old rest IH]; intros w Hw; simpl; auto.
  apply IH, walk_step_ok, Hw.
Qed.

Lemma compress_NoDup (m_nodes : list node_t) : NoDup (compress m_nodes).
Proof. apply (walk_fold_ok m_nodes walk_start walk_start_ok). Qed.

Lemma NoDup_distinct_positions (l : list node_t) (i j : nat) (a b : node_t) :
  NoDup l -> i <> j -> l !! i = Some a -> l !! j = Some b -> node_eqb a b = false.
Proof.
  intros Hnd Hij Ha Hb. apply node_eqb_false. intros ->.
  apply Hij. eapply NoDup_lookup; eauto.
Qed.

(** ** The binary form *)

Lemma Z_of_byte_of_Z (v : Z) : Z_of_byte (byte_of_Z v) = v mod 256.
Proof.
  unfold Z_of_byte, byte_of_Z.
  pose proof (Z.mod_pos_bound v 256 ltac:(lia)) as Hm.
  destruct (Byte.of_N (Z.to_N (v mod 256))) as [b|] eqn:Hb.
  - apply Byte.to_of_N in Hb. rewrite Hb. apply Z2N.id. lia.
  - apply Byte.of_N_None_iff in Hb. lia.
Qed.

Lemma length_low_bytes (width : nat) (v : Z) : length (low_bytes width v) = width.
Proof. revert v; induction width as [|w IH]; intros v; simpl; [|rewrite IH]; reflexivity. Qed.

Lemma low_bytes_value_low_bytes (width : nat) (v : Z) :
  low_bytes_value (low_bytes width v) = v mod 256 ^ Z.of_nat width.
Proof.
  revert v; induction width as [|w IH]; intros v.
  - simpl. by rewrite Z.mod_1_r.
  - cbn [low_bytes low_bytes_value]. rewrite Z_of_byte_of_Z, IH.
    rewrite Nat2Z.inj_succ, Z.pow_succ_r by lia.
    rewrite Z.rem_mul_r; [reflexivity | lia | apply Z.pow_pos_nonneg; lia].
Qed.

Lemma length_object_bytes (bo : byte_order) (width : nat) (v : Z) :
  length (object_bytes bo width v) = width.
Proof. destruct bo; simpl; rewrite ?length_rev; apply length_low_bytes. Qed.

Lemma object_value_bytes (bo : byte_order) (width : nat) (v : Z) :
  object_value bo (object_bytes bo width v) = v mod 256 ^ Z.of_nat width.
Proof.
  destruct bo; simpl; rewrite ?rev_involutive; apply low_bytes_value_low_bytes.
Qed.

Lemma length_int_bytes (bo : byte_order) (v : Z) : length (int_bytes bo v) = 4%nat.
Proof. apply length_object_bytes. Qed.

Lemma int_of_word_int_bytes (bo : byte_order) (v : Z) :
  is_int v -> int_of_word (object_value bo (int_bytes bo v)) = v.
Proof.
  intros Hv. unfold int_bytes, is_int in *. rewrite object_value_bytes.
  change (256 ^ Z.of_nat sizeof_int) with (2 ^ 32).
  rewrite Z.mod_mod by lia. unfold int_of_word.
  destruct (Z.lt_ge_cases v 0) as [Hneg|Hpos].
  - assert (Hm : v mod 2 ^ 32 = v + 2 ^ 32).
    { symmetry. apply (Z.mod_unique_pos _ _ (-1)); lia. }
    rewrite Hm. destruct (Z.ltb_spec (v + 2 ^ 32) (2 ^ 31)); lia.
  - rewrite Z.mod_small by lia. destruct (Z.ltb_spec v (2 ^ 31)); lia.
Qed.

Section FixedWidth.

Context {A : Type} (f : A -> list Byte.byte) (width : nat).
Hypothesis f_width : forall x, length (f x) = width.

Lemma length_flat_map_fixed (l : list A) :
  length (flat_map f l) = (width * length l)%nat.
Proof.
  induction l as [|x l IH]; simpl; [lia|].
  rewrite length_app, f_width, IH. lia.
Qed.

Lemma pieces_flat_map (l : list A) (rest : list Byte.byte) :
  pieces width (length l) (flat_map f l ++ rest) = map f l.
Proof.
  induction l as [|x l IH]; simpl; [reflexivity|].
  rewrite <- app_assoc.
  rewrite take_app_length', drop_app_length' by (symmetry; apply f_width).
  by rewrite IH.
Qed.

Lemma record_at_offset (l : list A) (rest : list Byte.byte) (k : nat) (x : A) :
  l !! k = Some x ->
  take width (drop (width * k) (flat_map f l ++ rest)) = f x.
Proof.
  revert k; induction l as [|y l IH]; intros k Hk; [by destruct k|].
  destruct k as [|k]; simpl in *.
  - injection Hk as ->. rewrite Nat.mul_0_r. simpl.
    rewrite <- app_assoc. apply take_app_length'. symmetry; apply f_width.
  - rewrite <- app_assoc.
    replace (width * S k)%nat with (length (f y) + width * k)%nat
      by (rewrite f_width; lia).
    rewrite drop_app_add. by apply IH.
Qed.

End FixedWidth.

Lemma length_node_bytes (bo : byte_order) (n : node_t) :
  length (node_bytes bo n) = 32%nat.
Proof.
  unfold node_bytes.
  rewrite (length_flat_map_fixed (int_bytes bo) 4 (length_int_bytes bo)). reflexivity.
Qed.

Lemma node_of_bytes_node_bytes (bo : byte_order) (n : node_t) :
  Forall is_int (children n) -> node_of_bytes bo (node_bytes bo n) = n.
Proof.
  intros Hn. unfold node_of_bytes, node_bytes.
  change 8%nat with (length (children n)).
  rewrite <- (app_nil_r (flat_map _ _)).
  rewrite (pieces_flat_map (int_bytes bo) sizeof_int (length_int_bytes bo)).
  rewrite map_map.
  rewrite (map_ext_Forall _ id); [rewrite map_id; apply node_of_array_children|].
  eapply Forall_impl; [exact Hn|]. intros v Hv. apply int_of_word_int_bytes, Hv.
Qed.

Lemma length_serialize (bo : byte_order) (m_nodes : list node_t) :
  length (serialize bo m_nodes) = (8 + 32 * length m_nodes)%nat.
Proof.
  unfold serialize. rewrite length_app, length_object_bytes.
  rewrite (length_flat_map_fixed (node_bytes bo) 32 (length_node_bytes bo)).
  reflexivity.
Qed.

Lemma serialize_count (bo : byte_order) (m_nodes : list node_t) :
  is_size_t (Z.of_N (size m_nodes)) ->
  object_value bo (take 8 (serialize bo m_nodes)) = Z.of_N (size m_nodes).
Proof.
  intros Hc. unfold serialize, is_size_t in *.
  rewrite take_app_length' by (by rewrite length_object_bytes).
  rewrite object_value_bytes. change (256 ^ Z.of_nat sizeof_size_t) with (2 ^ 64).
  rewrite Z.mod_mod by lia. apply Z.mod_small. lia.
Qed.

Lemma forallb_of_Forall {A : Type} (f : A -> bool) (l : list A) :
  Forall (fun x => f x = true) l -> forallb f l = true.
Proof. induction 1 as [|x l Hx _ IH]; simpl; [reflexivity | by rewrite Hx, IH]. Qed.

Lemma deserialize_serialize (bo : byte_order) (m_nodes : list node_t) :
  representable m_nodes -> indices_in_range m_nodes ->
  deserialize bo (serialize bo m_nodes) = Some m_nodes.
Proof.
  intros (Hc & Hint) Hidx. unfold indices_in_range in Hidx. unfold deserialize.
  rewrite length_serialize.
  destruct (Nat.ltb_spec (8 + 32 * length m_nodes) sizeof_size_t) as [Hlt|_];
    [unfold sizeof_size_t in Hlt; lia|].
  change sizeof_size_t with 8%nat. rewrite (serialize_count bo m_nodes Hc).
  unfold size. rewrite nat_N_Z.
  replace (Z.of_nat (8 + 32 * length m_nodes) =? Z.of_nat 8 + Z.of_nat sizeof_node * Z.of_nat (length m_nodes))
    with true by (symmetry; apply Z.eqb_eq; unfold sizeof_node; lia).
  simpl negb. cbv iota. rewrite Nat2Z.id.
  unfold serialize. rewrite drop_app_length' by (by rewrite length_object_bytes).
  rewrite <- (app_nil_r (flat_map _ _)).
  rewrite (pieces_flat_map (node_bytes bo) sizeof_node (length_node_bytes bo)).
  rewrite map_map.
  rewrite (map_ext_Forall _ id), map_id.
  - unfold size in Hidx. rewrite nat_N_Z in Hidx.
    by rewrite (forallb_of_Forall _ _ Hidx).
  - eapply Forall_impl; [exact Hint|]. intros n Hn. by apply node_of_bytes_node_bytes.
Qed.

(** C6. The serialized form of an arena of [count] nodes is
    [8 + 32 * count] bytes long: the count as an unsigned 64-bit integer
    at offset 0, then at offset [8 + 32 * k] the record of node [k], eight
    signed 32-bit integers in slot order; and reading this form back
    gives the arena again.  The reader validates child indices, so the
    last part is for arenas whose child indices are in range. *)
Theorem serialize_layout_and_roundtrip (bo : byte_order) (m_nodes : list node_t) :
  representable m_nodes ->
  Z.of_nat (length (serialize bo m_nodes)) = 8 + 32 * Z.of_N (size m_nodes)
  /\ object_value bo (take 8 (serialize bo m_nodes)) = Z.of_N (size m_nodes)
  /\ (forall (k : nat) (n : node_t),
        m_nodes !! k = Some n ->
        take 32 (drop (8 + 32 * k) (serialize bo m_nodes)) = node_bytes bo n
        /\ forall (s : nat) (v : Z),
             children n !! s = Some v ->
             int_of_word (object_value bo (take 4 (drop (4 * s) (node_bytes bo n)))) = v)
  /\ (indices_in_range m_nodes ->
      deserialize bo (serialize bo m_nodes) = Some m_nodes).
Proof.
  intros Hst. split; [|split; [|split]].
  - rewrite length_serialize. unfold size. lia.
  - apply serialize_count, Hst.
  - intros k n Hk. split.
    + unfold serialize. rewrite <- drop_drop.
      rewrite drop_app_length' by (by rewrite length_object_bytes).
      rewrite <- (app_nil_r (flat_map _ _)).
      by apply (record_at_offset (node_bytes bo) 32 (length_node_bytes bo)).
    + intros s v Hs. unfold node_bytes.
      rewrite <- (app_nil_r (flat_map _ _)).
      rewrite (record_at_offset (int_bytes bo) 4 (length_int_bytes bo) _ _ s v Hs).
      apply int_of_word_int_bytes.
      destruct Hst as (_ & Hint).
      eapply Forall_lookup_1 in Hint; [|exact Hk].
      eapply Forall_lookup_1 in Hint; [|exact Hs]. exact Hint.
  - by apply deserialize_serialize.
Qed.

Lemma serialize_layout_and_roundtrip_witness :
  representable sample_arena
  /\ indices_in_range sample_arena
  /\ Z.of_nat (length (serialize LittleEndian sample_arena)) = 8 + 32 * 4
  /\ deserialize BigEndian (serialize BigEndian sample_arena) = Some sample_arena.
Proof.
  assert (Hst : representable sample_arena).
  { unfold representable, is_size_t, is_int, sample_arena. simpl.
    repeat split; repeat constructor; simpl; lia. }
  assert (Hin : indices_in_range sample_arena).
  { unfold indices_in_range, sample_arena. repeat constructor. }
  split; [exact Hst|]. split; [exact Hin|]. split.
  - apply (serialize_layout_and_roundtrip LittleEndian sample_arena Hst).
  - apply (serialize_layout_and_roundtrip BigEndian sample_arena Hst). exact Hin.
Defined.

(** The reader turns down the form of an arena with a child index that
    refers to no node. *)
Lemma deserialize_rejects_dangling_index :
  deserialize LittleEndian (serialize LittleEndian [mk_node 5 0 0 0 0 0 0 0]) = None.
Proof. vm_compute. reflexivity. Qed.

(** ** The editor *)

(** A call with a by-value pool parameter changes the receiver and
    nothing else: every other live object, the caller's argument among
    them, keeps its nodes, whatever the body does to its parameter. *)
Lemma call_by_value_frame (body : frame -> frame) (σ : store)
    (self other o : nat) (this_pool other_pool : list node_t) :
  σ !! self = Some this_pool -> σ !! other = Some other_pool ->
  exists σ',
    call_by_value body self other σ = Some σ'
    /\ σ' !! self
       = Some (this_nodes (body {| this_nodes := this_pool; other_nodes := other_pool |}))
    /\ (o <> self -> σ' !! o = σ !! o).
Proof.
  intros Hself Hother. unfold call_by_value. rewrite Hself, Hother. simpl.
  eexists. split; [reflexivity|].
  assert (Hfresh : σ !! fresh (dom σ) = None).
  { apply not_elem_of_dom. apply is_fresh. }
  assert (Hne : fresh (dom σ) <> self) by congruence.
  split.
  - rewrite lookup_delete_ne by exact Hne. apply lookup_insert_eq.
  - intros Ho. destruct (decide (o = fresh (dom σ))) as [->|Hop].
    + by rewrite lookup_delete_eq.
    + rewrite lookup_delete_ne, !lookup_insert_ne by congruence.
      reflexivity.
Qed.

(** When the receiver is passed as its own argument the same object is the
    receiver, and it is the receiver that the call changes. *)
Lemma call_by_value_same_object (body : frame -> frame) (σ : store)
    (self : nat) (this_pool : list node_t) :
  σ !! self = Some this_pool ->
  exists σ',
    call_by_value body self self σ = Some σ'
    /\ σ' !! self
       = Some (this_nodes (body {| this_nodes := this_pool; other_nodes := this_pool |})).
Proof.
  intros Hself.
  destruct (call_by_value_frame body σ self self self this_pool this_pool Hself Hself)
    as (σ' & Hcall & Hthis & _).
  eauto.
Qed.

(** C4. [combine] and [subtract] leave the caller's other pool as it was:
    for a receiver and another pool object, the nodes of the other pool
    after the call are its nodes before the call, slot for slot and in
    the same number. *)
Theorem combine_subtract_leave_other
    (recursive_combine : bool -> N -> N -> list node_t -> list node_t)
    (recursive_subtract : N -> N -> list node_t -> list node_t)
    (σ : store) (self other : nat) (this_pool other_pool : list node_t)
    (overwrite recompress : bool) :
  σ !! self = Some this_pool -> σ !! other = Some other_pool -> self <> other ->
  (exists σ',
      combine recursive_combine self other overwrite recompress σ = Some σ'
      /\ σ' !! other = Some other_pool)
  /\ (exists σ',
      subtract recursive_subtract self other recompress σ = Some σ'
      /\ σ' !! other = Some other_pool).
Proof.
  intros Hself Hother Hne. unfold combine, subtract. split.
  - destruct (call_by_value_frame (combine_body recursive_combine overwrite recompress)
                σ self other other this_pool other_pool Hself Hother)
      as (σ' & Hcall & _ & Hframe).
    exists σ'. split; [exact Hcall|]. rewrite Hframe by congruence. exact Hother.
  - destruct (call_by_value_frame (subtract_body recursive_subtract recompress)
                σ self other other this_pool other_pool Hself Hother)
      as (σ' & Hcall & _ & Hframe).
    exists σ'. split; [exact Hcall|]. rewrite Hframe by congruence. exact Hother.
Qed.

Lemma combine_subtract_leave_other_witness :
  (exists σ',
      combine (fun _ _ _ l => l) 1%nat 2%nat false true sample_store = Some σ'
      /\ σ' !! 2%nat = Some [mk_node (-1) (-1) (-1) (-1) 0 0 0 0])
  /\ (exists σ',
      subtract (fun _ _ l => l) 1%nat 2%nat true sample_store = Some σ'
      /\ σ' !! 2%nat = Some [mk_node (-1) (-1) (-1) (-1) 0 0 0 0]).
Proof.
  apply (combine_subtract_leave_other (fun _ _ _ l => l) (fun _ _ l => l)
           sample_store 1%nat 2%nat sample_arena
           [mk_node (-1) (-1) (-1) (-1) 0 0 0 0] false true).
  - reflexivity.
  - reflexivity.
  - lia.
Defined.

(** ** Recompression at the end of an edit *)

Lemma call_by_value_receiver (body : frame -> frame) (σ σ' : store)
    (self other : nat) (m : list node_t) :
  call_by_value body self other σ = Some σ' -> σ' !! self = Some m ->
  exists f, m = this_nodes (body f).
Proof.
  intros Hcall Hm.
  destruct (σ !! self) as [this_pool|] eqn:Hself;
    [|by unfold call_by_value in Hcall; rewrite Hself in Hcall].
  destruct (σ !! other) as [other_pool|] eqn:Hother;
    [|by unfold call_by_value in Hcall; rewrite Hself, Hother in Hcall].
  destruct (call_by_value_frame body σ self other self this_pool other_pool Hself Hother)
    as (σ'' & Hcall' & Hthis & _).
  rewrite Hcall in Hcall'. injection Hcall' as <-.
  rewrite Hm in Hthis. injection Hthis as ->. eauto.
Qed.

(** C3. After [compress], the nodes at two distinct indices of the arena
    are never structurally equal; the same holds after any editor
    operation that ends with a recompression, and so for the receiver of
    [combine] and of [subtract] called with [recompress] set. *)
Theorem compress_no_equal_nodes (m_nodes : list node_t) :
  (forall (i j : nat) (a b : node_t),
      i <> j -> compress m_nodes !! i = Some a -> compress m_nodes !! j = Some b ->
      node_eqb a b = false)
  /\ (forall (operation : list node_t -> list node_t) (i j : nat) (a b : node_t),
      i <> j ->
      then_recompress operation m_nodes !! i = Some a ->
      then_recompress operation m_nodes !! j = Some b ->
      node_eqb a b = false)
  /\ (forall recursive_combine recursive_subtract (σ σ' : store) (self other : nat)
             (overwrite : bool) (i j : nat) (a b : node_t),
      combine recursive_combine self other overwrite true σ = Some σ'
      \/ subtract recursive_subtract self other true σ = Some σ' ->
      σ' !! self = Some m_nodes ->
      i <> j -> m_nodes !! i = Some a -> m_nodes !! j = Some b ->
      node_eqb a b = false).
Proof.
  split; [|split].
  - intros i j a b. apply NoDup_distinct_positions, compress_NoDup.
  - intros operation i j a b. apply NoDup_distinct_positions, compress_NoDup.
  - intros rc rs σ σ' self other overwrite i j a b Hcall Hm.
    apply NoDup_distinct_positions.
    destruct Hcall as [Hcall|Hcall];
      destruct (call_by_value_receiver _ _ _ _ _ _ Hcall Hm) as [f ->];
      simpl; apply compress_NoDup.
Qed.

Lemma compress_no_equal_nodes_witness :
  compress sample_arena !! 1%nat = Some (mk_node (-1) (-1) 0 0 (-1) (-1) 0 0)
  /\ compress sample_arena !! 2%nat = Some (mk_node 1 1 0 0 1 1 0 0)
  /\ node_eqb (mk_node (-1) (-1) 0 0 (-1) (-1) 0 0) (mk_node 1 1 0 0 1 1 0 0) = false
  /\ node_eqb (mk_node 0 0 0 0 0 0 0 0) (mk_node (-1) (-1) 0 0 (-1) (-1) 0 0) = false.
Proof.
  destruct (compress_no_equal_nodes sample_arena) as (Hplain & Hedit & _).
  assert (H1 : compress sample_arena !! 1%nat = Some (mk_node (-1) (-1) 0 0 (-1) (-1) 0 0))
    by (vm_compute; reflexivity).
  assert (H2 : compress sample_arena !! 2%nat = Some (mk_node 1 1 0 0 1 1 0 0))
    by (vm_compute; reflexivity).
  split; [exact H1|]. split; [exact H2|]. split.
  - apply (Hplain 1%nat 2%nat); [lia | exact H1 | exact H2].
  - apply (Hedit (fun l => l ++ l) 0%nat 1%nat); [lia | vm_compute; reflexivity ..].
Defined.

Lemma value_in_range (n : node_t) (index : N) (v : Z) :
  children n !! N.to_nat index = Some v -> (index < 8)%N /\ value n index = Returns v.
Proof.
  intros Hv. assert (Hlt : (index < 8)%N).
  { apply lookup_lt_Some in Hv. simpl in Hv. lia. }
  split; [exact Hlt|]. unfold value, children_size, array_subscript.
  destruct (N.ltb_spec index 8); [|lia]. by rewrite Hv.
Qed.

Lemma value_set_value (n : node_t) (index : N) (v : Z) :
  (index < 8)%N -> value (set_value n index v) index = Returns v.
Proof.
  intros Hlt.
  assert (H : (index = 0 \/ index = 1 \/ index = 2 \/ index = 3
               \/ index = 4 \/ index = 5 \/ index = 6 \/ index = 7)%N) by lia.
  destruct H as [->|[->|[->|[->|[->|[->|[->| ->]]]]]]]; reflexivity.
Qed.

Lemma value_set_value_other (n : node_t) (index j : N) (v : Z) :
  j <> index -> value (set_value n index v) j = value n j.
Proof.
  intros Hj. destruct (N.ltb_spec j 8) as [Hj8|Hj8].
  - assert (Hcases : (j = 0 \/ j = 1 \/ j = 2 \/ j = 3
                      \/ j = 4 \/ j = 5 \/ j = 6 \/ j = 7)%N) by lia.
    destruct index as [|[[[|[]|]|[|[]|]|]|[[|[]|]|[|[]|]|]|]];
      destruct Hcases as [->|[->|[->|[->|[->|[->|[->| ->]]]]]]];
      try reflexivity; contradiction.
  - unfold value, children_size. destruct (N.ltb_spec j 8); [lia | reflexivity].
Qed.

Lemma set_parent_slot_appended (m_nodes : list node_t) (parent_index child_index : N)
    (parent n : node_t) :
  get_node m_nodes parent_index = Some parent -> (child_index < 8)%N ->
  appended_under m_nodes
    (set_parent_slot (m_nodes ++ [n]) parent_index child_index (Z.of_N (size m_nodes)))
    parent_index child_index (size m_nodes) n.
Proof.
  intros Hp Hc. unfold get_node in Hp.
  pose proof (lookup_lt_Some _ _ _ Hp) as Hlt.
  unfold set_parent_slot, get_node. rewrite (lookup_app_l_Some _ _ _ _ Hp).
  unfold appended_under, parent_slot, get_node, size.
  split; [reflexivity|]. split; [|split; [|split; [|split]]].
  - rewrite length_insert, length_app. simpl. lia.
  - rewrite list_lookup_insert_ne by lia.
    rewrite Nat2N.id, lookup_app_r by lia.
    by rewrite Nat.sub_diag.
  - rewrite list_lookup_insert_eq by (rewrite length_app; lia). simpl.
    by rewrite value_set_value.
  - intros parent0 Hp0. rewrite Hp in Hp0. injection Hp0 as <-.
    eexists. split; [apply list_lookup_insert_eq; rewrite length_app; lia|].
    intros j Hj. by apply value_set_value_other.
  - intros i Hi Hil. rewrite list_lookup_insert_ne by lia.
    apply lookup_app_l. lia.
Qed.




(** ** The command line tool *)

Lemma create_result {vec3 vec2 image : Type} (h : host vec3 vec2 image)
    (filename out_filename : string) (depth : Z) :
  match create h filename out_filename depth with
  | Created false _ => scene_load h filename = None
  | Created true _ =>
      exists sc b textures m,
        scene_load h filename = Some sc
        /\ load_textures (decode_image h) sc (parent_path h filename) = Loaded b textures
        /\ build h (with_textures sc textures) depth = Built m
  | CreateRaised =>
      exists sc,
        scene_load h filename = Some sc
        /\ ((exists textures,
               load_textures (decode_image h) sc (parent_path h filename)
               = LoadRaised textures)
            \/ (exists b textures,
                  load_textures (decode_image h) sc (parent_path h filename)
                  = Loaded b textures
                  /\ build h (with_textures sc textures) depth = BuildRaised))
  end.
Proof.
  unfold create. destruct (scene_load h filename) as [sc|]; [|reflexivity].
  destruct (load_textures (decode_image h) sc (parent_path h filename))
    as [b textures|textures] eqn:Hl; [|eauto 6].
  destruct (build h (with_textures sc textures) depth) as [m|] eqn:Hb; [|eauto 8].
  destruct (ofstream_open h out_filename); eauto 8.
Qed.

(** Once the arguments are there and the input loads, no path of [main]
    returns 1, whatever the textures, the builder and the output file
    do. *)
Lemma main_not_1_once_loaded {vec3 vec2 image : Type} (h : host vec3 vec2 image)
    (argv : list string) :
  (4 <= length argv)%nat -> scene_load h (nth 1 argv ""%string) <> None ->
  main h argv <> Exited 1.
Proof.
  intros Hargs Hload. unfold main.
  destruct (Z.ltb_spec (Z.of_nat (length argv)) 4) as [Hfew|_]; [lia|].
  pose proof (create_result h (nth 1 argv ""%string) (nth 2 argv ""%string)
                (to_uint8 (atoi h (nth 3 argv ""%string)))) as Hc.
  destruct (create _ _ _ _) as [[|] written|]; [discriminate | contradiction | discriminate].
Qed.

(** A depth outside [1, 31] does not make the tool return 1.  With a mesh
    that loads and depth 0 or 99, the exit code is 0 when the builder
    returns; when the builder throws instead, nothing catches the
    exception and the process is terminated; in neither case is the exit
    code 1. *)
Lemma main_accepts_invalid_depth :
  ~ valid_depth (atoi sample_host "0")
  /\ main sample_host ["tool"; "assets/mesh.obj"; "out.bin"; "0"]%string = Exited 0
  /\ main raising_builder_host ["tool"; "assets/mesh.obj"; "out.bin"; "0"]%string
     = Terminated
  /\ main sample_host ["tool"; "assets/mesh.obj"; "out.bin"; "0"]%string <> Exited 1
  /\ main raising_builder_host ["tool"; "assets/mesh.obj"; "out.bin"; "0"]%string
     <> Exited 1
  /\ ~ valid_depth (atoi sample_host "99")
  /\ main sample_host ["tool"; "assets/mesh.obj"; "out.bin"; "99"]%string = Exited 0.
Proof.
  unfold valid_depth.
  repeat split; try reflexivity; try discriminate; vm_compute; intros [H1 H2]; auto.
Qed.

(** When the output file cannot be opened [create] writes nothing and
    still returns true, and [main] returns 0. *)
Lemma main_returns_0_without_output :
  create read_only_host "assets/mesh.obj" "out.bin" 5 = Created true None
  /\ main read_only_host ["tool"; "assets/mesh.obj"; "out.bin"; "5"]%string = Exited 0.
Proof. split; reflexivity. Qed.

(** When a texture of the scene does not decode, the exception of the
    decoder leaves [load_textures], [create] and [main]: the process is
    terminated without an exit code of its own. *)
Lemma main_terminated_by_texture :
  create broken_texture_host "assets/mesh.obj" "out.bin" 5 = CreateRaised
  /\ main broken_texture_host ["tool"; "assets/mesh.obj"; "out.bin"; "5"]%string
     = Terminated.
Proof. split; reflexivity. Qed.

(** C8, as the code has it.  When the output file can be opened, the tool
    exits with code 0 exactly when it is given its three arguments, the
    input loads, the textures of the scene load without an exception and
    the builder returns; it exits with code 1 exactly when an argument is
    missing or the input does not load; 0 and 1 are the only codes, and
    the process ends without a code of its own exactly when the decoder
    or the builder throws.  The depth takes no part in this: whatever
    [atoi] makes of the third argument is handed to the builder. *)
Theorem main_exit_code {vec3 vec2 image : Type} (h : host vec3 vec2 image)
    (argv : list string) :
  ofstream_open h (nth 2 argv ""%string) = true ->
  (main h argv = Exited 0 <->
     (4 <= length argv)%nat
     /\ exists sc b textures m,
          scene_load h (nth 1 argv ""%string) = Some sc
          /\ load_textures (decode_image h) sc (parent_path h (nth 1 argv ""%string))
             = Loaded b textures
          /\ build h (with_textures sc textures)
                   (to_uint8 (atoi h (nth 3 argv ""%string))) = Built m)
  /\ (main h argv = Exited 1 <->
     (length argv < 4)%nat \/ scene_load h (nth 1 argv ""%string) = None)
  /\ (forall code, main h argv = Exited code -> code = 0 \/ code = 1)
  /\ (main h argv = Terminated <->
     (4 <= length argv)%nat
     /\ exists sc,
          scene_load h (nth 1 argv ""%string) = Some sc
          /\ ((exists textures,
                 load_textures (decode_image h) sc
                   (parent_path h (nth 1 argv ""%string)) = LoadRaised textures)
              \/ (exists b textures,
                    load_textures (decode_image h) sc
                      (parent_path h (nth 1 argv ""%string)) = Loaded b textures
                    /\ build h (with_textures sc textures)
                             (to_uint8 (atoi h (nth 3 argv ""%string)))
                       = BuildRaised))).
Proof.
  intros _. unfold main.
  destruct (Z.ltb_spec (Z.of_nat (length argv)) 4) as [Hfew|Hargs].
  - split; [|split; [|split]].
    + split; [discriminate | lia].
    + split; [lia | reflexivity].
    + intros code [= <-]. lia.
    + split; [discriminate | lia].
  - pose proof (create_result h (nth 1 argv ""%string) (nth 2 argv ""%string)
                  (to_uint8 (atoi h (nth 3 argv ""%string)))) as Hc.
    destruct (create _ _ _ _) as [[|] written|].
    + destruct Hc as (sc & b & textures & m & Hl & Ht & Hb). split; [|split; [|split]].
      * split; [intros _; split; [lia | eauto 8] | reflexivity].
      * split; [discriminate | intros [?|Hn]; [lia | congruence]].
      * intros code [= <-]. lia.
      * split; [discriminate|].
        intros (_ & sc' & Hl' & [(t' & Ht')|(b' & t' & Ht' & Hb')]); congruence.
    + split; [|split; [|split]].
      * split; [discriminate | intros (_ & sc & b & t & m & Hl & _); congruence].
      * split; [auto | reflexivity].
      * intros code [= <-]. lia.
      * split; [discriminate | intros (_ & sc & Hl & _); congruence].
    + destruct Hc as (sc & Hl & Hraise). split; [|split; [|split]].
      * split; [discriminate|].
        intros (_ & sc' & b & t & m & Hl' & Ht & Hb).
        destruct Hraise as [(t' & Ht')|(b' & t' & Ht' & Hb')]; congruence.
      * split; [discriminate | intros [?|Hn]; [lia | congruence]].
      * discriminate.
      * split; [intros _; split; [lia | eauto] | reflexivity].
Qed.

Lemma main_exit_code_witness :
  (main sample_host ["tool"; "assets/mesh.obj"; "out.bin"; "7"]%string = Exited 0 <->
     (4 <= 4)%nat
     /\ exists sc b textures m,
          scene_load sample_host "assets/mesh.obj" = Some sc
          /\ load_textures (decode_image sample_host) sc
               (parent_path sample_host "assets/mesh.obj") = Loaded b textures
          /\ build sample_host (with_textures sc textures)
                   (to_uint8 (atoi sample_host "7")) = Built m)
  /\ main sample_host ["tool"; "missing.obj"; "out.bin"; "7"]%string = Exited 1.
Proof.
  split.
  - apply (main_exit_code sample_host ["tool"; "assets/mesh.obj"; "out.bin"; "7"]%string).
    reflexivity.
  - apply (main_exit_code sample_host ["tool"; "missing.obj"; "out.bin"; "7"]%string).
    + reflexivity.
    + right. reflexivity.
Defined.

(** * Further properties of the sources *)

(** ** Slots of a node: reading, writing, construction *)

Lemma value_slots (n : node_t) :
  value n 0 = Returns (c0 n) /\ value n 1 = Returns (c1 n)
  /\ value n 2 = Returns (c2 n) /\ value n 3 = Returns (c3 n)
  /\ value n 4 = Returns (c4 n) /\ value n 5 = Returns (c5 n)
  /\ value n 6 = Returns (c6 n) /\ value n 7 = Returns (c7 n).
Proof. repeat split; reflexivity. Qed.

Lemma small_index (index : N) :
  (index < 8)%N ->
  (index = 0 \/ index = 1 \/ index = 2 \/ index = 3
   \/ index = 4 \/ index = 5 \/ index = 6 \/ index = 7)%N.
Proof. lia. Qed.

(** X1. Two nodes compare equal with [operator==] exactly when the
    accessor [value(index)] gives the same answer on both for every
    index. *)
Theorem node_eqb_iff_values (a b : node_t) :
  node_eqb a b = true <-> forall index : N, value a index = value b index.
Proof.
  rewrite node_eqb_eq. split; [by intros ->|].
  intros H. destruct (value_slots a) as (A0 & A1 & A2 & A3 & A4 & A5 & A6 & A7).
  destruct (value_slots b) as (B0 & B1 & B2 & B3 & B4 & B5 & B6 & B7).
  pose proof (H 0%N) as H0. pose proof (H 1%N) as H1. pose proof (H 2%N) as H2.
  pose proof (H 3%N) as H3. pose proof (H 4%N) as H4. pose proof (H 5%N) as H5.
  pose proof (H 6%N) as H6. pose proof (H 7%N) as H7.
  destruct a, b; simpl in *. congruence.
Qed.

(** X2. A write through the non-const accessor is seen by a later read of
    the same slot and by no other slot; for an index of 8 or more the
    accessor throws and nothing is written. *)
Theorem assign_value_then_value (n : node_t) (index : N) (v : Z) :
  ((index < 8)%N ->
     exists n', assign_value n index v = Returns n'
                /\ value n' index = Returns v
                /\ forall j : N, j <> index -> value n' j = value n j)
  /\ ((8 <= index)%N -> assign_value n index v = ThrowsOutOfRange).
Proof.
  unfold assign_value, children_size. destruct (N.ltb_spec index 8) as [Hlt|Hge].
  - split; [intros _ | lia]. eexists. split; [reflexivity|].
    split; [by apply value_set_value|].
    intros j Hj. destruct (N.ltb_spec j 8) as [Hj8|Hj8].
    + destruct (small_index index Hlt) as [->|[->|[->|[->|[->|[->|[->| ->]]]]]]];
        destruct (small_index j Hj8) as [->|[->|[->|[->|[->|[->|[->| ->]]]]]]];
        try reflexivity; contradiction.
    + unfold value, children_size. destruct (N.ltb_spec j 8); [lia | reflexivity].
  - split; [lia | reflexivity].
Qed.

Lemma assign_value_then_value_witness :
  exists n', assign_value null 3 (-1) = Returns n'
             /\ value n' 3 = Returns (-1)
             /\ forall j : N, j <> 3%N -> value n' j = value null j.
Proof. apply (assign_value_then_value null 3 (-1)). reflexivity. Defined.

(** The constructor from an array and the accessor [value()] are inverse
    to each other: a node built from an array of eight slots holds that
    array, and a node is rebuilt from the array it holds. *)
Lemma node_of_array_children_inverse (nodes : list Z) (n : node_t) :
  (length nodes = 8%nat -> children (node_of_array nodes) = nodes)
  /\ node_of_array (children n) = n.
Proof.
  split; [|apply node_of_array_children].
  intros Hlen.
  destruct nodes as [|a0 [|a1 [|a2 [|a3 [|a4 [|a5 [|a6 [|a7 [|a8 rest]]]]]]]]];
    simpl in Hlen; try discriminate. reflexivity.
Qed.

Lemma node_of_array_children_inverse_witness :
  children (node_of_array [1; 2; 3; -1; 0; 0; -1; 7]) = [1; 2; 3; -1; 0; 0; -1; 7].
Proof.
  apply (node_of_array_children_inverse [1; 2; 3; -1; 0; 0; -1; 7] null). reflexivity.
Defined.

(** ** The hashers: range and separation *)

Lemma low_bits_only (w x i : Z) : 0 <= x < 2 ^ w -> w <= i -> Z.testbit x i = false.
Proof.
  intros Hx Hi. destruct (Z.lt_ge_cases w 0) as [Hw|Hw].
  - rewrite Z.pow_neg_r in Hx by lia. lia.
  - destruct (Z.eq_dec x 0) as [->|Hne]; [apply Z.bits_0|].
    apply Z.bits_above_log2; [lia|].
    assert (Z.log2 x < w) by (apply Z.log2_lt_pow2; lia). lia.
Qed.

Lemma lxor_bound (w a b : Z) :
  0 <= a < 2 ^ w -> 0 <= b < 2 ^ w -> 0 <= Z.lxor a b < 2 ^ w.
Proof.
  intros Ha Hb.
  assert (H0 : 0 <= Z.lxor a b) by (apply Z.lxor_nonneg; lia).
  split; [exact H0|].
  destruct (Z.lt_ge_cases w 0) as [Hw|Hw]; [rewrite Z.pow_neg_r in Ha by lia; lia|].
  destruct (Z.eq_dec w 0) as [->|Hw0].
  { change (2 ^ 0) with 1 in *. assert (a = 0) by lia. assert (b = 0) by lia.
    subst. rewrite Z.lxor_0_r. lia. }
  destruct (Z.eq_dec (Z.lxor a b) 0) as [->|Hne]; [apply Z.pow_pos_nonneg; lia|].
  apply Z.log2_lt_pow2; [lia|].
  pose proof (Z.log2_lxor a b (proj1 Ha) (proj1 Hb)) as Hl.
  assert (Z.log2 a < w).
  { destruct (Z.eq_dec a 0) as [->|]; [simpl; lia|]. apply Z.log2_lt_pow2; lia. }
  assert (Z.log2 b < w).
  { destruct (Z.eq_dec b 0) as [->|]; [simpl; lia|]. apply Z.log2_lt_pow2; lia. }
  lia.
Qed.

Lemma shiftr_bound (w x s : Z) : 0 <= s -> 0 <= x < 2 ^ w -> 0 <= Z.shiftr x s < 2 ^ w.
Proof.
  intros Hs Hx. rewrite Z.shiftr_div_pow2 by lia.
  assert (0 < 2 ^ s) by (apply Z.pow_pos_nonneg; lia).
  split; [apply Z.div_pos; lia|].
  apply Z.le_lt_trans with x; [|lia].
  apply Z.div_le_upper_bound; [lia|]. nia.
Qed.

Lemma xorshift_bound (w x s : Z) :
  0 <= s -> 0 <= x < 2 ^ w -> 0 <= Z.lxor x (Z.shiftr x s) < 2 ^ w.
Proof. intros Hs Hx. apply lxor_bound; [exact Hx | by apply shiftr_bound]. Qed.

(** [h ^= h >> s] loses nothing on a word of [w] bits. *)
Lemma xorshift_inj (w s x y : Z) :
  0 < s -> 0 <= x < 2 ^ w -> 0 <= y < 2 ^ w ->
  Z.lxor x (Z.shiftr x s) = Z.lxor y (Z.shiftr y s) -> x = y.
Proof.
  intros Hs Hx Hy Heq.
  assert (Hbits : forall (n : nat) (i : Z),
             w - Z.of_nat n <= i -> Z.testbit x i = Z.testbit y i).
  { induction n as [|n IH]; intros i Hi.
    - rewrite (low_bits_only w x i), (low_bits_only w y i) by lia. reflexivity.
    - destruct (Z.lt_ge_cases i 0) as [Hneg|Hpos];
        [by rewrite !Z.testbit_neg_r by lia|].
      assert (Hi' : Z.testbit (Z.lxor x (Z.shiftr x s)) i
                    = Z.testbit (Z.lxor y (Z.shiftr y s)) i) by (by rewrite Heq).
      rewrite !Z.lxor_spec, !Z.shiftr_spec in Hi' by lia.
      rewrite (IH (i + s)) in Hi' by lia.
      destruct (Z.testbit x i), (Z.testbit y i), (Z.testbit y (i + s));
        simpl in Hi'; congruence. }
  apply Z.bits_inj'. intros i Hi.
  apply (Hbits (Z.to_nat (w - i))). lia.
Qed.

Lemma lxor_cancel_r (k a b : Z) : Z.lxor a k = Z.lxor b k -> a = b.
Proof.
  intros H.
  rewrite <- (Z.lxor_0_r a), <- (Z.lxor_0_r b), <- (Z.lxor_nilpotent k).
  by rewrite <- !Z.lxor_assoc, H.
Qed.

(** A multiplication by a constant that has an inverse modulo [M] loses
    nothing modulo [M]. *)
Lemma mul_mod_inj (M c c_inv a b : Z) :
  (c * c_inv) mod M = 1 -> (a * c) mod M = (b * c) mod M -> a mod M = b mod M.
Proof.
  intros Hinv Heq.
  assert (Hback : forall x, ((x * c) mod M * c_inv) mod M = x mod M).
  { intros x. destruct (Z.eq_dec M 0) as [->|HM].
    - rewrite !Z.mod_0_r in *. rewrite <- Z.mul_assoc, Hinv. lia.
    - rewrite Z.mul_mod_idemp_l by exact HM.
      rewrite <- Z.mul_assoc, <- Z.mul_mod_idemp_r, Hinv, Z.mul_1_r by exact HM.
      reflexivity. }
  rewrite <- (Hback a), <- (Hback b), Heq. reflexivity.
Qed.

Lemma mul_u32_inj (c c_inv a b : Z) :
  (c * c_inv) mod 2 ^ 32 = 1 -> 0 <= a < 2 ^ 32 -> 0 <= b < 2 ^ 32 ->
  u32 (a * c) = u32 (b * c) -> a = b.
Proof.
  intros Hinv Ha Hb Heq. unfold u32 in Heq.
  apply (mul_mod_inj _ _ _ _ _ Hinv) in Heq.
  by rewrite !Z.mod_small in Heq.
Qed.

Lemma rotl32_range (x r : Z) : 0 <= rotl32 x r < 2 ^ 32.
Proof. unfold rotl32. apply Z.mod_pos_bound. lia. Qed.

Lemma rotl32_inj (x y r : Z) :
  0 <= x < 2 ^ 32 -> 0 <= y < 2 ^ 32 -> 0 < r < 32 ->
  rotl32 x r = rotl32 y r -> x = y.
Proof.
  intros Hx Hy Hr Heq. apply Z.bits_inj'. intros i Hi.
  destruct (Z.lt_ge_cases i 32) as [Hlt|Hge];
    [|by rewrite (low_bits_only 32 x i), (low_bits_only 32 y i)].
  assert (Hj : exists j, 0 <= j < 32 /\ (j - r) mod 32 = i).
  { destruct (Z.lt_ge_cases (i + r) 32).
    - exists (i + r). split; [lia|]. replace (i + r - r) with i by lia.
      apply Z.mod_small. lia.
    - exists (i + r - 32). split; [lia|].
      symmetry. apply (Z.mod_unique_pos _ _ (-1)); lia. }
  destruct Hj as (j & Hj & <-).
  rewrite <- (rotl32_testbit x r j), <- (rotl32_testbit y r j) by lia.
  by rewrite Heq.
Qed.

Lemma spec_mix_range (h k : Z) : 0 <= spec_mix h k < 2 ^ 32.
Proof. unfold spec_mix. apply Z.mod_pos_bound. lia. Qed.

Lemma add_const_mod_inj (M c a b : Z) :
  (a + c) mod M = (b + c) mod M -> a mod M = b mod M.
Proof.
  intros H. replace a with (a + c - c) by lia. replace b with (b + c - c) by lia.
  rewrite (Zminus_mod (a + c)), (Zminus_mod (b + c)), H. reflexivity.
Qed.

(** One turn of the loop loses nothing of the state it starts from. *)
Lemma loop_body_inj_state (k h h' : Z) :
  0 <= h < 2 ^ 32 -> 0 <= h' < 2 ^ 32 ->
  loop_body h k = loop_body h' k -> h = h'.
Proof.
  intros Hh Hh'. rewrite !loop_body_spec by assumption. unfold spec_mix.
  set (k2 := (rotl32 ((k * 0xcc9e2d51) mod 2 ^ 32) 15 * 0x1b873593) mod 2 ^ 32).
  assert (Hk2 : 0 <= k2 < 2 ^ 32) by (apply Z.mod_pos_bound; lia).
  intros Heq. apply add_const_mod_inj in Heq.
  apply (mul_mod_inj _ 5 0xcccccccd) in Heq; [|reflexivity].
  rewrite !(Z.mod_small (rotl32 _ _)) in Heq by apply rotl32_range.
  apply rotl32_inj in Heq; [| by apply lxor_range | by apply lxor_range | lia].
  by apply lxor_cancel_r in Heq.
Qed.

(** One turn of the loop loses nothing of the word it mixes in. *)
Lemma loop_body_inj_word (h k k' : Z) :
  0 <= h < 2 ^ 32 -> 0 <= k < 2 ^ 32 -> 0 <= k' < 2 ^ 32 ->
  loop_body h k = loop_body h k' -> k = k'.
Proof.
  intros Hh Hk Hk'. rewrite !loop_body_spec by assumption. unfold spec_mix.
  intros Heq. apply add_const_mod_inj in Heq.
  apply (mul_mod_inj _ 5 0xcccccccd) in Heq; [|reflexivity].
  rewrite !(Z.mod_small (rotl32 _ _)) in Heq by apply rotl32_range.
  apply rotl32_inj in Heq;
    [| apply lxor_range; [exact Hh | apply Z.mod_pos_bound; lia]
     | apply lxor_range; [exact Hh | apply Z.mod_pos_bound; lia] | lia].
  rewrite (Z.lxor_comm h), (Z.lxor_comm h) in Heq. apply lxor_cancel_r in Heq.
  apply (mul_mod_inj _ 0x1b873593 0x56ed309b) in Heq; [|reflexivity].
  rewrite !(Z.mod_small (rotl32 _ _)) in Heq by apply rotl32_range.
  apply rotl32_inj in Heq; [| apply Z.mod_pos_bound; lia | apply Z.mod_pos_bound; lia | lia].
  apply (mul_mod_inj _ 0xcc9e2d51 0xdee13bb1) in Heq; [|reflexivity].
  by rewrite !Z.mod_small in Heq.
Qed.

Lemma hash_loop_range (ws : list Z) (h : Z) :
  0 <= h < 2 ^ 32 -> 0 <= hash_loop h ws < 2 ^ 32.
Proof. intros Hh. by apply hash_loop_fold. Qed.

Lemma hash_loop_inj_state (ws : list Z) (h h' : Z) :
  0 <= h < 2 ^ 32 -> 0 <= h' < 2 ^ 32 ->
  hash_loop h ws = hash_loop h' ws -> h = h'.
Proof.
  revert h h'; induction ws as [|k ws IH]; intros h h' Hh Hh' Heq; simpl in Heq.
  - exact Heq.
  - apply IH in Heq; [| apply loop_body_range | apply loop_body_range].
    by apply loop_body_inj_state in Heq.
Qed.

Lemma hash_loop_app (pre post : list Z) (h : Z) :
  hash_loop h (pre ++ post) = hash_loop (hash_loop h pre) post.
Proof. revert h; induction pre as [|k pre IH]; intros h; simpl; [reflexivity | apply IH]. Qed.

(** The finalisation, for a given length, loses nothing of the state. *)
Lemma finalisation_inj (len h h' : Z) :
  0 <= len < 2 ^ 32 -> 0 <= h < 2 ^ 32 -> 0 <= h' < 2 ^ 32 ->
  (let a := Z.lxor h len in
   let a := Z.lxor a (Z.shiftr a 16) in
   let a := u32 (a * 0x85ebca6b) in
   let a := Z.lxor a (Z.shiftr a 13) in
   let a := u32 (a * 0xc2b2ae35) in
   Z.lxor a (Z.shiftr a 16))
  = (let a := Z.lxor h' len in
     let a := Z.lxor a (Z.shiftr a 16) in
     let a := u32 (a * 0x85ebca6b) in
     let a := Z.lxor a (Z.shiftr a 13) in
     let a := u32 (a * 0xc2b2ae35) in
     Z.lxor a (Z.shiftr a 16)) ->
  h = h'.
Proof.
  intros Hlen Hh Hh'. cbv zeta. intros Heq.
  pose proof (lxor_range h len Hh Hlen) as H1.
  pose proof (lxor_range h' len Hh' Hlen) as H1'.
  pose proof (xorshift_bound 32 _ 16 ltac:(lia) H1) as H2.
  pose proof (xorshift_bound 32 _ 16 ltac:(lia) H1') as H2'.
  set (a2 := Z.lxor (Z.lxor h len) (Z.shiftr (Z.lxor h len) 16)) in *.
  set (a2' := Z.lxor (Z.lxor h' len) (Z.shiftr (Z.lxor h' len) 16)) in *.
  pose proof (u32_range (a2 * 0x85ebca6b)) as H3.
  pose proof (u32_range (a2' * 0x85ebca6b)) as H3'.
  pose proof (xorshift_bound 32 _ 13 ltac:(lia) H3) as H4.
  pose proof (xorshift_bound 32 _ 13 ltac:(lia) H3') as H4'.
  set (a4 := Z.lxor (u32 (a2 * 0x85ebca6b)) (Z.shiftr (u32 (a2 * 0x85ebca6b)) 13)) in *.
  set (a4' := Z.lxor (u32 (a2' * 0x85ebca6b)) (Z.shiftr (u32 (a2' * 0x85ebca6b)) 13)) in *.
  apply (xorshift_inj 32 16) in Heq; [| lia | apply u32_range | apply u32_range].
  apply (mul_u32_inj _ 0x7ed1b41d) in Heq; [| reflexivity | exact H4 | exact H4'].
  subst a4 a4'.
  apply (xorshift_inj 32 13) in Heq; [| lia | exact H3 | exact H3'].
  apply (mul_u32_inj _ 0xa5cb9243) in Heq; [| reflexivity | exact H2 | exact H2'].
  subst a2 a2'.
  apply (xorshift_inj 32 16) in Heq; [| lia | exact H1 | exact H1'].
  by apply lxor_cancel_r in Heq.
Qed.

(** X3. Whatever the words, the hasher returns a value of 32 bits; the
    [std::hash] of a node, although a [size_t], is below [2^32]. *)
Theorem murmur_hasher32_range (word_span : list Z) (n : node_t) :
  0 <= murmur_hasher32 word_span < 2 ^ 32 /\ 0 <= hash n < 2 ^ 32.
Proof.
  assert (H : forall ws, 0 <= murmur_hasher32 ws < 2 ^ 32).
  { intros ws. unfold murmur_hasher32. cbv zeta.
    apply xorshift_bound; [lia | apply u32_range]. }
  split; [apply H | apply H].
Qed.

(** Two spans of the same length that differ in one word only never have
    the same hash. *)
Lemma murmur_hasher32_separates (pre post : list Z) (k k' : Z) :
  0 <= k < 2 ^ 32 -> 0 <= k' < 2 ^ 32 -> k <> k' ->
  murmur_hasher32 (pre ++ k :: post) <> murmur_hasher32 (pre ++ k' :: post).
Proof.
  intros Hk Hk' Hne Heq. apply Hne. unfold murmur_hasher32 in Heq.
  rewrite !length_app in Heq. simpl length in Heq.
  assert (H0 : 0 <= hash_loop 0 pre < 2 ^ 32) by (apply hash_loop_range; lia).
  apply finalisation_inj in Heq;
    [| apply u32_range | apply hash_loop_range; lia | apply hash_loop_range; lia].
  rewrite !hash_loop_app in Heq. simpl in Heq.
  apply hash_loop_inj_state in Heq; [| apply loop_body_range | apply loop_body_range].
  by apply loop_body_inj_word in Heq.
Qed.

Lemma reinterpret_u32_inj (v v' : Z) :
  is_int v -> is_int v' -> reinterpret_u32 v = reinterpret_u32 v' -> v = v'.
Proof.
  unfold is_int, reinterpret_u32. intros Hv Hv' Heq.
  change (2 ^ 31) with 2147483648 in *. change (2 ^ 32) with 4294967296 in *.
  pose proof (Z.div_mod v 4294967296 ltac:(lia)).
  pose proof (Z.div_mod v' 4294967296 ltac:(lia)).
  pose proof (Z.mod_pos_bound v 4294967296 ltac:(lia)).
  pose proof (Z.mod_pos_bound v' 4294967296 ltac:(lia)).
  lia.
Qed.

Lemma children_set_value (n : node_t) (index : N) (v : Z) :
  (index < 8)%N ->
  children (set_value n index v)
  = take (N.to_nat index) (children n) ++ v :: drop (S (N.to_nat index)) (children n).
Proof.
  intros Hlt.
  destruct (small_index index Hlt) as [->|[->|[->|[->|[->|[->|[->| ->]]]]]]];
    reflexivity.
Qed.

(** X4. Two nodes that differ in exactly one slot never have the same
    hash: writing two different [int] values in the same slot of a node
    gives two nodes with different [std::hash] values. *)
Theorem hash_separates_one_slot (n : node_t) (index : N) (v v' : Z) :
  (index < 8)%N -> is_int v -> is_int v' -> v <> v' ->
  hash (set_value n index v) <> hash (set_value n index v').
Proof.
  intros Hlt Hv Hv' Hne. unfold hash.
  rewrite !children_set_value by exact Hlt.
  rewrite !map_app. simpl map.
  apply murmur_hasher32_separates.
  - apply Z.mod_pos_bound. lia.
  - apply Z.mod_pos_bound. lia.
  - intros Heq. apply Hne. by apply reinterpret_u32_inj.
Qed.

Lemma hash_separates_one_slot_witness :
  hash (set_value null 5 (-1)) <> hash (set_value null 5 7).
Proof.
  apply (hash_separates_one_slot null 5 (-1) 7); unfold is_int; (reflexivity || lia).
Defined.

Lemma pack_two_words (word0 word1 : Z) :
  is_u32 word0 -> is_u32 word1 ->
  Z.lor word0 (u64 (Z.shiftl word1 32)) = word0 + word1 * 2 ^ 32.
Proof.
  unfold is_u32, u64. intros H0 H1.
  rewrite Z.shiftl_mul_pow2 by lia.
  rewrite (Z.mod_small (word1 * 2 ^ 32)) by (change (2 ^ 64) with (2 ^ 32 * 2 ^ 32); nia).
  assert (Hland : Z.land word0 (word1 * 2 ^ 32) = 0).
  { apply Z.bits_inj'. intros i Hi. rewrite Z.land_spec, Z.bits_0.
    destruct (Z.lt_ge_cases i 32) as [Hlt|Hge].
    - rewrite Z.mul_pow2_bits_low by lia. apply andb_false_r.
    - by rewrite (low_bits_only 32 word0 i). }
  pose proof (Z.add_lor_land word0 (word1 * 2 ^ 32)) as Hadd.
  rewrite Hland, Z.add_0_r in Hadd. exact Hadd.
Qed.

Lemma mul_u64_inj (c c_inv a b : Z) :
  (c * c_inv) mod 2 ^ 64 = 1 -> 0 <= a < 2 ^ 64 -> 0 <= b < 2 ^ 64 ->
  u64 (a * c) = u64 (b * c) -> a = b.
Proof.
  intros Hinv Ha Hb Heq. unfold u64 in Heq.
  apply (mul_mod_inj _ _ _ _ _ Hinv) in Heq.
  by rewrite !Z.mod_small in Heq.
Qed.

Lemma u64_range (x : Z) : 0 <= u64 x < 2 ^ 64.
Proof. unfold u64. apply Z.mod_pos_bound. lia. Qed.

(** X5. The two-word overload returns a value of 32 bits, the low half of
    a 64-bit mix; that mix, before it is cut, is one-to-one on pairs of
    words. *)
Theorem murmur_hasher32_pair_mix (a b a' b' : Z) :
  is_u32 a -> is_u32 b -> is_u32 a' -> is_u32 b' ->
  0 <= murmur_hasher32_pair a b < 2 ^ 32
  /\ 0 <= mix64 a b < 2 ^ 64
  /\ (mix64 a b = mix64 a' b' -> a = a' /\ b = b').
Proof.
  intros Ha Hb Ha' Hb'.
  assert (Hpack : forall x y, is_u32 x -> is_u32 y -> 0 <= x + y * 2 ^ 32 < 2 ^ 64).
  { unfold is_u32. intros x y Hx Hy.
    change (2 ^ 64) with (2 ^ 32 * 2 ^ 32). nia. }
  split; [apply u32_range|].
  unfold mix64. cbv zeta. rewrite !pack_two_words by assumption.
  pose proof (Hpack a b Ha Hb) as H0. pose proof (Hpack a' b' Ha' Hb') as H0'.
  set (h0 := a + b * 2 ^ 32) in *. set (h0' := a' + b' * 2 ^ 32) in *.
  pose proof (xorshift_bound 64 h0 33 ltac:(lia) H0) as H1.
  pose proof (xorshift_bound 64 h0' 33 ltac:(lia) H0') as H1'.
  set (h1 := Z.lxor h0 (Z.shiftr h0 33)) in *.
  set (h1' := Z.lxor h0' (Z.shiftr h0' 33)) in *.
  pose proof (u64_range (h1 * 0xff51afd7ed558ccd)) as H2.
  pose proof (u64_range (h1' * 0xff51afd7ed558ccd)) as H2'.
  set (h2 := u64 (h1 * 0xff51afd7ed558ccd)) in *.
  set (h2' := u64 (h1' * 0xff51afd7ed558ccd)) in *.
  pose proof (xorshift_bound 64 h2 33 ltac:(lia) H2) as H3.
  pose proof (xorshift_bound 64 h2' 33 ltac:(lia) H2') as H3'.
  set (h3 := Z.lxor h2 (Z.shiftr h2 33)) in *.
  set (h3' := Z.lxor h2' (Z.shiftr h2' 33)) in *.
  split; [apply xorshift_bound; [lia | apply u64_range]|].
  intros Heq.
  apply (xorshift_inj 64 33) in Heq; [| lia | apply u64_range | apply u64_range].
  apply (mul_u64_inj _ 0x9cb4b2f8129337db) in Heq; [| reflexivity | exact H3 | exact H3'].
  subst h3 h3'.
  apply (xorshift_inj 64 33) in Heq; [| lia | exact H2 | exact H2'].
  subst h2 h2'.
  apply (mul_u64_inj _ 0x4f74430c22a54005) in Heq; [| reflexivity | exact H1 | exact H1'].
  subst h1 h1'.
  apply (xorshift_inj 64 33) in Heq; [| lia | exact H0 | exact H0'].
  subst h0 h0'. unfold is_u32 in *.
  change (2 ^ 32) with 4294967296 in *. lia.
Qed.

Lemma murmur_hasher32_pair_mix_witness :
  0 <= murmur_hasher32_pair 1 2 < 2 ^ 32
  /\ 0 <= mix64 1 2 < 2 ^ 64
  /\ (mix64 1 2 = mix64 1 2 -> 1 = 1 /\ 2 = 2).
Proof.
  apply (murmur_hasher32_pair_mix 1 2 1 2); unfold is_u32; lia.
Defined.

(** ** Raw triangles *)

Lemma drop_three {A : Type} (l : list A) (k : nat) :
  (k + 3 <= length l)%nat ->
  exists v0 v1 v2,
    take 3 (drop k l) = [v0; v1; v2]
    /\ l !! k = Some v0 /\ l !! (k + 1)%nat = Some v1 /\ l !! (k + 2)%nat = Some v2.
Proof.
  intros Hlen.
  assert (Hd : (3 <= length (drop k l))%nat) by (rewrite length_drop; lia).
  pose proof (lookup_drop l k 0) as L0. pose proof (lookup_drop l k 1) as L1.
  pose proof (lookup_drop l k 2) as L2.
  destruct (drop k l) as [|v0 [|v1 [|v2 rest]]]; simpl in Hd; try lia.
  exists v0, v1, v2. simpl in *. rewrite Nat.add_0_r in L0. by repeat split.
Qed.

(** X6. On a raw list made of whole triangles, and for an index whose
    triple fits a [size_t], [get_triangle] answers with the three vertices
    at positions [3 id], [3 id + 1], [3 id + 2] when the index is below
    [get_raw_triangles_count], and with [std::nullopt] otherwise. *)
Theorem get_triangle_whole_triangles {vec3 : Type} (s : scene vec3) (id : N) :
  (vsize (m_triangles s) mod 3 = 0)%N ->
  (id * 3 < size_max)%N ->
  ((id < get_raw_triangles_count s)%N ->
     exists v0 v1 v2,
       get_triangle s id = Some [v0; v1; v2]
       /\ m_triangles s !! N.to_nat (3 * id) = Some v0
       /\ m_triangles s !! N.to_nat (3 * id + 1) = Some v1
       /\ m_triangles s !! N.to_nat (3 * id + 2) = Some v2)
  /\ ((get_raw_triangles_count s <= id)%N -> get_triangle s id = None).
Proof.
  intros Hwhole Hfit. unfold get_triangle, get_raw_triangles_count, size_mul.
  rewrite N.mod_small by exact Hfit.
  assert (Hdm : vsize (m_triangles s) = (3 * (vsize (m_triangles s) / 3))%N).
  { rewrite (N.div_mod (vsize (m_triangles s)) 3) at 1 by lia. lia. }
  destruct (N.leb_spec (vsize (m_triangles s)) (id * 3)) as [Hle|Hlt].
  - split; [lia | reflexivity].
  - split; [intros _ | lia]. unfold vsize in *.
    destruct (drop_three (m_triangles s) (N.to_nat (id * 3))) as (v0 & v1 & v2 & Ht & L0 & L1 & L2);
      [lia|].
    exists v0, v1, v2. rewrite Ht.
    replace (N.to_nat (3 * id)) with (N.to_nat (id * 3)) by lia.
    replace (N.to_nat (3 * id + 1)) with (N.to_nat (id * 3) + 1)%nat by lia.
    replace (N.to_nat (3 * id + 2)) with (N.to_nat (id * 3) + 2)%nat by lia.
    by repeat split.
Qed.

Lemma get_triangle_whole_triangles_witness :
  (exists v0 v1 v2,
      get_triangle single_triangle_scene 0 = Some [v0; v1; v2]
      /\ m_triangles single_triangle_scene !! N.to_nat (3 * 0) = Some v0
      /\ m_triangles single_triangle_scene !! N.to_nat (3 * 0 + 1) = Some v1
      /\ m_triangles single_triangle_scene !! N.to_nat (3 * 0 + 2) = Some v2)
  /\ get_triangle single_triangle_scene 1 = None.
Proof.
  split.
  - apply (get_triangle_whole_triangles single_triangle_scene 0); reflexivity.
  - apply (get_triangle_whole_triangles single_triangle_scene 1);
      [reflexivity | reflexivity | vm_compute; discriminate].
Defined.

(** X7. [get_triangle_ptr] and [get_triangle] agree: one gives the null
    pointer exactly when the other gives [std::nullopt], and otherwise the
    span starts where the pointer points. *)
Theorem get_triangle_ptr_agrees {vec3 : Type} (s : scene vec3) (id : N) :
  (get_triangle_ptr s id = None <-> get_triangle s id = None)
  /\ (forall position : N,
        get_triangle_ptr s id = Some position ->
        (position < vsize (m_triangles s))%N
        /\ get_triangle s id = Some (take 3 (drop (N.to_nat position) (m_triangles s)))).
Proof.
  unfold get_triangle_ptr, get_triangle.
  destruct (N.ltb_spec (size_mul id 3) (vsize (m_triangles s))) as [Hlt|Hge];
    destruct (N.leb_spec (vsize (m_triangles s)) (size_mul id 3)) as [Hle|Hgt];
    try lia.
  - split; [split; discriminate|]. intros position [= <-]. by split.
  - split; [by split|]. discriminate.
Qed.

Lemma get_triangle_ptr_agrees_witness :
  (0 < vsize (m_triangles single_triangle_scene))%N
  /\ get_triangle single_triangle_scene 0
     = Some (take 3 (drop (N.to_nat 0) (m_triangles single_triangle_scene))).
Proof.
  apply (proj2 (get_triangle_ptr_agrees single_triangle_scene 0) 0%N). reflexivity.
Defined.

(** X8. In a scene without indexed geometry whose raw list holds at least
    two vertices, some index below [get_triangles_count] is answered with
    [std::nullopt] by [get_triangle]: the count is the number of vertices,
    not of triangles. *)
Theorem triangles_count_overshoots {vec3 : Type} (s : scene vec3) :
  m_indexed_tris s = [] ->
  (2 <= vsize (m_triangles s))%N ->
  (vsize (m_triangles s) * 3 < size_max)%N ->
  get_triangles_count s = vsize (m_triangles s)
  /\ exists id : N, (id < get_triangles_count s)%N /\ get_triangle s id = None.
Proof.
  intros Hno Htwo Hfit.
  assert (Hc : get_triangles_count s = vsize (m_triangles s)).
  { unfold get_triangles_count. by rewrite Hno. }
  split; [exact Hc|]. rewrite Hc.
  exists ((vsize (m_triangles s) + 2) / 3)%N.
  pose proof (N.div_mod (vsize (m_triangles s) + 2) 3 ltac:(lia)) as Hdm.
  pose proof (N.mod_lt (vsize (m_triangles s) + 2) 3 ltac:(lia)) as Hm.
  set (q := ((vsize (m_triangles s) + 2) / 3)%N) in *.
  set (r := ((vsize (m_triangles s) + 2) mod 3)%N) in *.
  split; [lia|].
  unfold get_triangle, size_mul. rewrite N.mod_small by lia.
  destruct (N.leb_spec (vsize (m_triangles s)) (q * 3)); [reflexivity | lia].
Qed.

Lemma triangles_count_overshoots_witness :
  get_triangles_count single_triangle_scene = vsize (m_triangles single_triangle_scene)
  /\ exists id : N,
       (id < get_triangles_count single_triangle_scene)%N
       /\ get_triangle single_triangle_scene id = None.
Proof.
  apply (triangles_count_overshoots single_triangle_scene); [reflexivity | | ];
    vm_compute; (discriminate || reflexivity).
Defined.

(** X9. When the raw list does not hold whole triangles, the index of
    the trailing partial triangle is answered with a span, and that span
    runs past the end of the vector: fewer than three of its elements
    exist. *)
Theorem get_triangle_partial_triangle {vec3 : Type} (s : scene vec3) :
  (vsize (m_triangles s) mod 3 <> 0)%N ->
  (vsize (m_triangles s) < size_max)%N ->
  exists inside : list vec3,
    get_triangle s (vsize (m_triangles s) / 3) = Some inside
    /\ N.of_nat (length inside) = (vsize (m_triangles s) mod 3)%N
    /\ (length inside < 3)%nat.
Proof.
  intros Hpart Hfit.
  pose proof (N.div_mod (vsize (m_triangles s)) 3 ltac:(lia)) as Hdm.
  pose proof (N.mod_lt (vsize (m_triangles s)) 3 ltac:(lia)) as Hm.
  set (q := (vsize (m_triangles s) / 3)%N) in *.
  set (r := (vsize (m_triangles s) mod 3)%N) in *.
  unfold get_triangle, size_mul. rewrite N.mod_small by lia.
  destruct (N.leb_spec (vsize (m_triangles s)) (q * 3)); [lia|].
  eexists. split; [reflexivity|].
  rewrite length_take, length_drop. unfold vsize in *. lia.
Qed.

Lemma get_triangle_partial_triangle_witness :
  exists inside : list nat,
    get_triangle {| m_vertices := []; m_indexed_tris := []; m_triangles := [1; 2; 3; 4]%nat |}
                 (4 / 3) = Some inside
    /\ N.of_nat (length inside) = (4 mod 3)%N
    /\ (length inside < 3)%nat.
Proof.
  apply (get_triangle_partial_triangle
           {| m_vertices := []; m_indexed_tris := []; m_triangles := [1; 2; 3; 4]%nat |});
    vm_compute; (discriminate || reflexivity).
Defined.

(** X10. The product [id * 3] wraps, and multiplication by three is a
    one-to-one map of [size_t]: for every position of the raw list, a
    multiple of three or not, there is an index for which [get_triangle]
    returns the span that starts at this position. *)
Theorem get_triangle_any_position {vec3 : Type} (s : scene vec3) (position : N) :
  (position < vsize (m_triangles s))%N ->
  (vsize (m_triangles s) <= size_max)%N ->
  exists id : N,
    (id < size_max)%N
    /\ get_triangle s id = Some (take 3 (drop (N.to_nat position) (m_triangles s))).
Proof.
  intros Hpos Hfit.
  exists ((position * 0xAAAAAAAAAAAAAAAB) mod size_max)%N.
  split; [apply N.mod_lt; discriminate|].
  assert (Hmul : size_mul ((position * 0xAAAAAAAAAAAAAAAB) mod size_max) 3 = position).
  { unfold size_mul. rewrite N.Div0.mul_mod_idemp_l.
    rewrite <- N.mul_assoc. rewrite <- N.Div0.mul_mod_idemp_r.
    replace ((0xAAAAAAAAAAAAAAAB * 3) mod size_max)%N with 1%N by (vm_compute; reflexivity).
    rewrite N.mul_1_r. apply N.mod_small. lia. }
  unfold get_triangle. rewrite Hmul.
  destruct (N.leb_spec (vsize (m_triangles s)) position); [lia | reflexivity].
Qed.

Lemma get_triangle_any_position_witness :
  exists id : N,
    (id < size_max)%N
    /\ get_triangle single_triangle_scene id
       = Some (take 3 (drop (N.to_nat 2) (m_triangles single_triangle_scene))).
Proof.
  apply (get_triangle_any_position single_triangle_scene 2); vm_compute;
    (discriminate || reflexivity).
Defined.

(** ** The indexed accessors *)

Lemma vector_at_Returns {A : Type} (v : list A) (i : N) (x : A) :
  vector_at v i = Returns x <-> v !! N.to_nat i = Some x.
Proof.
  unfold vector_at. destruct (v !! N.to_nat i); split; congruence.
Qed.

Lemma vector_at_outside {A : Type} (v : list A) (i : N) :
  (vsize v <= i)%N -> vector_at v i = OutOfBoundsRead.
Proof.
  intros Hi. unfold vector_at, vsize in *.
  rewrite lookup_ge_None_2 by lia. reflexivity.
Qed.

Lemma vector_at_inside {A : Type} (v : list A) (i : N) :
  (i < vsize v)%N -> exists x, vector_at v i = Returns x /\ v !! N.to_nat i = Some x.
Proof.
  intros Hi. unfold vector_at, vsize in *.
  destruct (lookup_lt_is_Some_2 v (N.to_nat i)) as [x Hx]; [lia|].
  exists x. by rewrite Hx.
Qed.

Lemma material_id_cases {vec3 : Type} (s : scene vec3) (id_tri : N) :
  (forall t, m_indexed_tris s !! N.to_nat id_tri = Some t ->
             get_triangle_material_id s id_tri = Returns (material_idx t))
  /\ ((vsize (m_indexed_tris s) <= id_tri)%N ->
      get_triangle_material_id s id_tri = Returns 0%N)
  /\ get_triangle_material_id s id_tri <> OutOfBoundsRead.
Proof.
  unfold get_triangle_material_id.
  destruct (N.ltb_spec id_tri (vsize (m_indexed_tris s))) as [Hlt|Hge].
  - destruct (vector_at_inside _ _ Hlt) as (t & Ht & Hl). rewrite Ht. simpl.
    split; [|split]; [intros t' Ht'; congruence | lia | discriminate].
  - split; [|split]; [|reflexivity | discriminate].
    intros t Ht. apply lookup_lt_Some in Ht. unfold vsize in Hge. lia.
Qed.

(** X11. [get_triangle_material_id] never reads outside the triangle
    list: it returns the material index of the triangle for an index in
    range and 0 for every other index. *)
Theorem get_triangle_material_id_guarded {vec3 : Type} (s : scene vec3) (id_tri : N) :
  (forall t, m_indexed_tris s !! N.to_nat id_tri = Some t ->
             get_triangle_material_id s id_tri = Returns (material_idx t))
  /\ ((vsize (m_indexed_tris s) <= id_tri)%N ->
      get_triangle_material_id s id_tri = Returns 0%N)
  /\ get_triangle_material_id s id_tri <> OutOfBoundsRead.
Proof. apply material_id_cases. Qed.

Lemma get_triangle_material_id_guarded_witness :
  get_triangle_material_id single_triangle_scene 4 = Returns 0%N.
Proof.
  apply (get_triangle_material_id_guarded single_triangle_scene 4).
  vm_compute. discriminate.
Defined.

(** X12. [get_triangle_color] reads the material list without a check.
    It is safe for every index, in range or not, exactly under two
    conditions on the scene: there is a material 0, which is the one an
    index out of range gets, and the material index of every triangle is
    below the number of materials.  Without any material every call reads
    out of bounds. *)
Theorem get_triangle_color_safety {vec3 vec2 image : Type}
    (d : scene_data vec3 vec2 image) :
  ((forall id_tri, exists c, get_triangle_color d id_tri = Returns c)
     <-> (m_materials d <> []
          /\ Forall (fun t => (material_idx t < vsize (m_materials d))%N)
                    (m_indexed_tris (geometry d))))
  /\ (forall id_tri m0,
        (vsize (m_indexed_tris (geometry d)) <= id_tri)%N ->
        m_materials d !! 0%nat = Some m0 ->
        get_triangle_color d id_tri = Returns (diffuse_color m0))
  /\ (m_materials d = [] ->
      forall id_tri, get_triangle_color d id_tri = OutOfBoundsRead).
Proof.
  assert (Hout : forall id_tri,
             (vsize (m_indexed_tris (geometry d)) <= id_tri)%N ->
             get_triangle_color d id_tri
             = and_then (vector_at (m_materials d) 0)
                        (fun m => Returns (diffuse_color m))).
  { intros id_tri Hge. unfold get_triangle_color.
    destruct (material_id_cases (geometry d) id_tri) as (_ & H0 & _).
    by rewrite (H0 Hge). }
  assert (Hin : forall id_tri t,
             m_indexed_tris (geometry d) !! N.to_nat id_tri = Some t ->
             get_triangle_color d id_tri
             = and_then (vector_at (m_materials d) (material_idx t))
                        (fun m => Returns (diffuse_color m))).
  { intros id_tri t Ht. unfold get_triangle_color.
    destruct (material_id_cases (geometry d) id_tri) as (H0 & _ & _).
    by rewrite (H0 t Ht). }
  split; [|split].
  - split.
    + intros Hsafe. split.
      * intros Hnil.
        destruct (Hsafe (vsize (m_indexed_tris (geometry d)))) as [c Hc].
        rewrite Hout, Hnil in Hc by lia. discriminate.
      * apply Forall_lookup_2. intros i t Hi.
        destruct (Hsafe (N.of_nat i)) as [c Hc].
        rewrite (Hin (N.of_nat i) t) in Hc by (by rewrite Nat2N.id).
        destruct (N.lt_ge_cases (material_idx t) (vsize (m_materials d))) as [|Hge];
          [assumption|].
        rewrite (vector_at_outside _ _ Hge) in Hc. discriminate.
    + intros [Hne Hall] id_tri.
      destruct (N.lt_ge_cases id_tri (vsize (m_indexed_tris (geometry d)))) as [Hlt|Hge].
      * destruct (vector_at_inside _ _ Hlt) as (t & _ & Ht).
        rewrite (Hin id_tri t Ht).
        eapply Forall_lookup_1 in Hall; [|exact Ht].
        destruct (vector_at_inside _ _ Hall) as (m & Hm & _). rewrite Hm. simpl. eauto.
      * rewrite (Hout id_tri Hge).
        destruct (m_materials d) as [|m0 ms]; [contradiction|]. simpl. eauto.
  - intros id_tri m0 Hge Hm0. rewrite (Hout id_tri Hge).
    unfold vector_at. change (N.to_nat 0) with 0%nat. by rewrite Hm0.
  - intros Hnil id_tri.
    destruct (N.lt_ge_cases id_tri (vsize (m_indexed_tris (geometry d)))) as [Hlt|Hge].
    + destruct (vector_at_inside _ _ Hlt) as (t & _ & Ht).
      rewrite (Hin id_tri t Ht), Hnil. reflexivity.
    + rewrite (Hout id_tri Hge), Hnil. reflexivity.
Qed.

Lemma get_triangle_color_safety_witness :
  (exists c, get_triangle_color sample_scene_data 0 = Returns c)
  /\ get_triangle_color sample_scene_data 9 = Returns (1, 1, 1).
Proof.
  destruct (get_triangle_color_safety sample_scene_data) as ([_ Hsafe] & Hout & _).
  split.
  - apply Hsafe. split; [discriminate | repeat constructor].
  - apply (Hout 9%N {| name := "default"; texture := "skip.png";
                       diffuse_color := (1, 1, 1) |}).
    + vm_compute. discriminate.
    + reflexivity.
Defined.

Lemma gather_Returns {vec3 A : Type} (s : scene vec3) (idx : indexed_tri_t -> list N)
    (v : list A) (id_tri : N) (x0 x1 x2 : A) :
  gather s idx v id_tri = Returns (x0, x1, x2)
  <-> exists t i0 i1 i2,
        m_indexed_tris s !! N.to_nat id_tri = Some t
        /\ idx t !! 0%nat = Some i0 /\ idx t !! 1%nat = Some i1
        /\ idx t !! 2%nat = Some i2
        /\ v !! N.to_nat i0 = Some x0 /\ v !! N.to_nat i1 = Some x1
        /\ v !! N.to_nat i2 = Some x2.
Proof.
  unfold gather, and_then, vector_at.
  change (N.to_nat 0) with 0%nat. change (N.to_nat 1) with 1%nat.
  change (N.to_nat 2) with 2%nat.
  split.
  - destruct (m_indexed_tris s !! N.to_nat id_tri) as [t|] eqn:Et; [|discriminate].
    destruct (idx t !! 0%nat) as [i0|] eqn:I0; [|discriminate].
    destruct (v !! N.to_nat i0) as [y0|] eqn:E0; [|discriminate].
    destruct (idx t !! 1%nat) as [i1|] eqn:I1; [|discriminate].
    destruct (v !! N.to_nat i1) as [y1|] eqn:E1; [|discriminate].
    destruct (idx t !! 2%nat) as [i2|] eqn:I2; [|discriminate].
    destruct (v !! N.to_nat i2) as [y2|] eqn:E2; [|discriminate].
    intros [= -> -> ->]. exists t, i0, i1, i2. by repeat split.
  - intros (t & i0 & i1 & i2 & -> & -> & -> & -> & -> & -> & ->). reflexivity.
Qed.

Lemma gather_outside {vec3 A : Type} (s : scene vec3) (idx : indexed_tri_t -> list N)
    (v : list A) (id_tri : N) :
  (vsize (m_indexed_tris s) <= id_tri)%N -> gather s idx v id_tri = OutOfBoundsRead.
Proof. intros H. unfold gather. by rewrite (vector_at_outside _ _ H). Qed.

(** X13. [get_triangle_vertices] returns three vertices exactly when the
    triangle exists and its three vertex indices are positions of the
    vertex list, and the vertices are those at these positions. *)
Theorem get_triangle_vertices_returns {vec3 : Type} (s : scene vec3) (id_tri : N)
    (v0 v1 v2 : vec3) :
  get_triangle_vertices s id_tri = Returns (v0, v1, v2)
  <-> exists t i0 i1 i2,
        m_indexed_tris s !! N.to_nat id_tri = Some t
        /\ vertices_idx t !! 0%nat = Some i0 /\ vertices_idx t !! 1%nat = Some i1
        /\ vertices_idx t !! 2%nat = Some i2
        /\ m_vertices s !! N.to_nat i0 = Some v0
        /\ m_vertices s !! N.to_nat i1 = Some v1
        /\ m_vertices s !! N.to_nat i2 = Some v2.
Proof. apply gather_Returns. Qed.

(** X14. None of the accessors [get_triangle_vertices],
    [get_triangle_normals], [get_triangle_tex_coords] and
    [is_triangle_textured] checks the triangle index: for an index that is
    not below the number of indexed triangles each of them reads out of
    bounds. *)
Theorem indexed_accessors_unchecked {vec3 vec2 image : Type}
    (d : scene_data vec3 vec2 image) (id_tri : N) :
  (vsize (m_indexed_tris (geometry d)) <= id_tri)%N ->
  get_triangle_vertices (geometry d) id_tri = OutOfBoundsRead
  /\ get_triangle_normals d id_tri = OutOfBoundsRead
  /\ get_triangle_tex_coords d id_tri = OutOfBoundsRead
  /\ is_triangle_textured (geometry d) id_tri = OutOfBoundsRead.
Proof.
  intros H. repeat split; try (by apply gather_outside).
  unfold is_triangle_textured. by rewrite (vector_at_outside _ _ H).
Qed.

Lemma indexed_accessors_unchecked_witness :
  get_triangle_vertices (geometry sample_scene_data) 2 = OutOfBoundsRead
  /\ get_triangle_normals sample_scene_data 2 = OutOfBoundsRead
  /\ get_triangle_tex_coords sample_scene_data 2 = OutOfBoundsRead
  /\ is_triangle_textured (geometry sample_scene_data) 2 = OutOfBoundsRead.
Proof.
  apply (indexed_accessors_unchecked sample_scene_data 2). vm_compute. discriminate.
Defined.

(** X15. For a triangle that exists, [is_triangle_textured] answers true
    exactly when none of its three texture coordinate indices is 0: a
    corner that uses texture coordinate 0 makes the triangle count as not
    textured. *)
Theorem is_triangle_textured_iff {vec3 : Type} (s : scene vec3) (id_tri : N)
    (t : indexed_tri_t) (i0 i1 i2 : N) :
  m_indexed_tris s !! N.to_nat id_tri = Some t ->
  tex_coord_idx t = [i0; i1; i2] ->
  exists b, is_triangle_textured s id_tri = Returns b
            /\ (b = true <-> i0 <> 0%N /\ i1 <> 0%N /\ i2 <> 0%N).
Proof.
  intros Ht Hidx. unfold is_triangle_textured, and_then, vector_at.
  rewrite Ht, Hidx. simpl.
  destruct (N.eqb_spec i0 0), (N.eqb_spec i1 0), (N.eqb_spec i2 0); simpl;
    eexists; (split; [reflexivity|]); split; (congruence || tauto || (intros (? & ? & ?); congruence)).
Qed.

Lemma is_triangle_textured_iff_witness :
  exists b, is_triangle_textured sample_indexed_scene 1 = Returns b
            /\ (b = true <-> 1%N <> 0%N /\ 3%N <> 0%N /\ 2%N <> 0%N).
Proof.
  apply (is_triangle_textured_iff sample_indexed_scene 1
           {| vertices_idx := [1; 3; 2]%N; tex_coord_idx := [1; 3; 2]%N;
              normals_idx := [0; 0; 0]%N; material_idx := 0%N |});
    reflexivity.
Defined.

(** ** Loading the textures *)

Section LoadTextures.

Context {vec3 vec2 image : Type} (read_image : string -> option image).

Lemma load_loop_counts (path : string) (materials : list (material_t vec3))
    (matIndex j : Z) (textures textures' : gmap string image) :
  load_loop read_image path materials matIndex textures = inl (j, textures') ->
  j = matIndex + Z.of_nat (length materials).
Proof.
  revert matIndex textures.
  induction materials as [|material rest IH]; intros matIndex textures H; simpl in H.
  - injection H as <- _. simpl. lia.
  - destruct (matIndex + 1 =? 0).
    + apply IH in H. simpl length. lia.
    + destruct ((3 <? String.length (texture material))%nat
                && bool_decide (textures !! texture material = None)).
      * destruct (read_image _); [|discriminate]. apply IH in H. simpl length. lia.
      * apply IH in H. simpl length. lia.
Qed.

Lemma load_loop_keeps (path : string) (materials : list (material_t vec3))
    (matIndex : Z) (textures : gmap string image) (texName : string) (img : image) :
  textures !! texName = Some img ->
  loop_textures (load_loop read_image path materials matIndex textures) !! texName
  = Some img.
Proof.
  revert matIndex textures.
  induction materials as [|material rest IH]; intros matIndex textures H; simpl.
  - exact H.
  - destruct (matIndex + 1 =? 0); [by apply IH|].
    destruct ((3 <? String.length (texture material))%nat) eqn:Hlen; simpl;
      [|by apply IH].
    destruct (bool_decide_reflect (textures !! texture material = None)) as [Hnone|Hsome];
      simpl; [|by apply IH].
    destruct (read_image _) as [loaded|]; simpl; [|exact H].
    apply IH. rewrite lookup_insert_ne; [exact H | congruence].
Qed.

(** Where an entry of the result comes from: it was there before, or it
    is the decoded file of a material that is not the first of the scene
    and has a texture name of more than three characters. *)
Lemma load_loop_origin (path : string) (materials : list (material_t vec3))
    (matIndex : Z) (textures : gmap string image) (texName : string) (img : image) :
  loop_textures (load_loop read_image path materials matIndex textures) !! texName
  = Some img ->
  textures !! texName = Some img
  \/ (textures !! texName = None
      /\ exists (k : nat) (material : material_t vec3),
        materials !! k = Some material /\ matIndex + 1 + Z.of_nat k <> 0
        /\ texture material = texName
        /\ (3 < String.length texName)%nat
        /\ read_image (texture_path path texName) = Some img).
Proof.
  revert matIndex textures.
  induction materials as [|material rest IH]; intros matIndex textures H; simpl in H.
  - by left.
  - assert (Hrest : forall textures0,
               loop_textures (load_loop read_image path rest (matIndex + 1) textures0)
                 !! texName = Some img ->
               textures0 = textures ->
               textures !! texName = Some img
               \/ (textures !! texName = None
                   /\ exists (k : nat) (m : material_t vec3),
                     (material :: rest) !! k = Some m
                     /\ matIndex + 1 + Z.of_nat k <> 0
                     /\ texture m = texName /\ (3 < String.length texName)%nat
                     /\ read_image (texture_path path texName) = Some img)).
    { intros textures0 H0 ->. apply IH in H0 as [H0|(Hn & k & m & Hk & Hi & Hm)];
        [by left|].
      right. split; [exact Hn|]. exists (S k), m. split; [exact Hk|].
      split; [lia | exact Hm]. }
    destruct (matIndex + 1 =? 0) eqn:Hz; [by apply (Hrest textures)|].
    apply Z.eqb_neq in Hz.
    destruct ((3 <? String.length (texture material))%nat) eqn:Hlen; simpl in H;
      [|by apply (Hrest textures)].
    destruct (bool_decide_reflect (textures !! texture material = None)) as [Hnone|Hsome];
      simpl in H; [|by apply (Hrest textures)].
    destruct (read_image (replace_backslash (path ++ "/" ++ texture material)))
      as [loaded|] eqn:Hread; simpl in H; [|by left].
    apply IH in H as [H|(Hn & k & m & Hk & Hi & Hm)].
    + destruct (decide (texture material = texName)) as [Heq|Hne].
      * rewrite Heq, lookup_insert_eq in H. injection H as ->.
        right. split; [by rewrite <- Heq|]. exists 0%nat, material.
        split; [reflexivity|]. split; [lia|]. split; [exact Heq|].
        apply Nat.ltb_lt in Hlen. rewrite <- Heq. split; [exact Hlen|].
        unfold texture_path. exact Hread.
      * left. by rewrite lookup_insert_ne in H.
    + destruct (decide (texture material = texName)) as [Heq|Hne];
        [by rewrite Heq, lookup_insert_eq in Hn|].
      rewrite lookup_insert_ne in Hn by exact Hne.
      right. split; [exact Hn|]. exists (S k), m. split; [exact Hk|].
      split; [lia | exact Hm].
Qed.

(** When the loop returns, every material that is not the first of the
    scene and has a texture name of more than three characters has its
    texture stored. *)
Lemma load_loop_complete (path : string) (materials : list (material_t vec3))
    (matIndex j : Z) (textures textures' : gmap string image)
    (k : nat) (material : material_t vec3) :
  load_loop read_image path materials matIndex textures = inl (j, textures') ->
  materials !! k = Some material -> matIndex + 1 + Z.of_nat k <> 0 ->
  (3 < String.length (texture material))%nat ->
  is_Some (textures' !! texture material).
Proof.
  revert matIndex textures k.
  induction materials as [|head rest IH]; intros matIndex textures k H Hk Hi Hlen;
    [discriminate|].
  simpl in H.
  assert (Hkept : forall textures0,
             load_loop read_image path rest (matIndex + 1) textures0 = inl (j, textures') ->
             is_Some (textures0 !! texture material) ->
             is_Some (textures' !! texture material)).
  { intros textures0 H0 [img Himg].
    pose proof (load_loop_keeps path rest (matIndex + 1) textures0 _ _ Himg) as Hk0.
    rewrite H0 in Hk0. simpl in Hk0. eauto. }
  destruct k as [|k].
  - injection Hk as ->. simpl in Hi.
    destruct (Z.eqb_spec (matIndex + 1) 0) as [Hz|Hz]; [lia|].
    apply Nat.ltb_lt in Hlen. rewrite Hlen in H. simpl in H.
    destruct (bool_decide_reflect (textures !! texture material = None)) as [Hnone|Hsome];
      simpl in H.
    + destruct (read_image _) as [loaded|]; [|discriminate].
      apply (Hkept _ H). rewrite lookup_insert_eq. eauto.
    + apply (Hkept _ H). destruct (textures !! texture material); [eauto | contradiction].
  - simpl in Hk.
    assert (Hi' : matIndex + 1 + 1 + Z.of_nat k <> 0) by lia.
    destruct (matIndex + 1 =? 0); [by eapply IH|].
    destruct ((3 <? String.length (texture head))%nat
              && bool_decide (textures !! texture head = None)); [|by eapply IH].
    destruct (read_image _) as [loaded|]; [|discriminate]. by eapply IH.
Qed.

(** X16. The boolean of [load_textures] tells whether the scene has a
    material and nothing else: it is false exactly for a scene without
    materials, and true also when no texture was loaded, as in a scene
    whose texture names all have three characters or less, where the
    decoder is not called and the textures stay as they were. *)
Theorem load_textures_result (d : scene_data vec3 vec2 image) (path : string) :
  (forall b textures,
      load_textures read_image d path = Loaded b textures ->
      (b = false <-> m_materials d = []))
  /\ (m_materials d = [] ->
      load_textures read_image d path = Loaded false (m_textures d))
  /\ (m_materials d <> [] ->
      Forall (fun m => (String.length (texture m) <= 3)%nat) (m_materials d) ->
      load_textures read_image d path = Loaded true (m_textures d)).
Proof.
  unfold load_textures. split; [|split].
  - intros b textures H.
    destruct (load_loop read_image path (m_materials d) (-1) (m_textures d))
      as [[j t]|t] eqn:Hloop; [|discriminate].
    apply load_loop_counts in Hloop.
    destruct (Z.eqb_spec j (-1)) as [Hj|Hj]; injection H as <- _.
    + split; [intros _ | reflexivity].
      destruct (m_materials d); [reflexivity | simpl in Hloop; lia].
    + split; [discriminate|]. intros Hnil. rewrite Hnil in Hloop. simpl in Hloop. lia.
  - intros ->. reflexivity.
  - intros Hne Hshort.
    assert (Hskip : forall (materials : list (material_t vec3)) i t,
               Forall (fun m => (String.length (texture m) <= 3)%nat) materials ->
               load_loop read_image path materials i t
               = inl (i + Z.of_nat (length materials), t)).
    { induction materials as [|m rest IH]; intros i t Hall; simpl.
      - f_equal. f_equal. lia.
      - inversion Hall as [|? ? Hm Hrest]; subst.
        replace (i + Z.of_nat (S (length rest)))
          with (i + 1 + Z.of_nat (length rest)) by lia.
        destruct (i + 1 =? 0); [by apply IH|].
        destruct (Nat.ltb_spec 3 (String.length (texture m))); [lia|]. simpl.
        by apply IH. }
    rewrite (Hskip _ _ _ Hshort).
    destruct (m_materials d) as [|m rest]; [contradiction|].
    destruct (Z.eqb_spec (-1 + Z.of_nat (length (m :: rest))) (-1)) as [Hj|Hj];
      [simpl in Hj; lia | reflexivity].
Qed.

(** X17. [load_textures] never replaces or removes a texture the scene
    already holds, whether it returns or is left by an exception of the
    decoder. *)
Theorem load_textures_keeps (d : scene_data vec3 vec2 image) (path : string)
    (texName : string) (img : image) :
  m_textures d !! texName = Some img ->
  textures_after (load_textures read_image d path) !! texName = Some img.
Proof.
  intros H.
  pose proof (load_loop_keeps path (m_materials d) (-1) (m_textures d) _ _ H) as Hk.
  unfold load_textures.
  destruct (load_loop read_image path (m_materials d) (-1) (m_textures d))
    as [[j t]|t]; simpl in *; [|exact Hk].
  destruct (j =? -1); exact Hk.
Qed.

(** The first material of the scene is skipped: its texture is not loaded,
    and the outcome does not depend on it. *)
Lemma load_textures_skips_first (d d' : scene_data vec3 vec2 image) (path : string)
    (first first' : material_t vec3) (rest : list (material_t vec3)) :
  m_materials d = first :: rest -> m_materials d' = first' :: rest ->
  m_textures d = m_textures d' ->
  load_textures read_image d path = load_textures read_image d' path.
Proof.
  intros H H' Ht. unfold load_textures. rewrite H, H', Ht. reflexivity.
Qed.

(** X18. When [load_textures] returns, the textures of the scene are the
    ones it had and, for each material after the first whose texture name
    has more than three characters and was not there yet, the file
    [path/name], with backslashes turned to slashes, as decoded. *)
Theorem load_textures_loads (d : scene_data vec3 vec2 image) (path : string)
    (b : bool) (textures : gmap string image) :
  load_textures read_image d path = Loaded b textures ->
  forall (texName : string) (img : image),
    textures !! texName = Some img
    <-> (m_textures d !! texName = Some img
         \/ (m_textures d !! texName = None
             /\ (exists (k : nat) (material : material_t vec3),
                   (0 < k)%nat /\ m_materials d !! k = Some material
                   /\ texture material = texName)
             /\ (3 < String.length texName)%nat
             /\ read_image (replace_backslash (path ++ "/" ++ texName)%string)
                = Some img)).
Proof.
  intros H texName img. unfold load_textures in H.
  destruct (load_loop read_image path (m_materials d) (-1) (m_textures d))
    as [[j t]|t] eqn:Hloop; [|discriminate].
  assert (Ht : t = textures) by (destruct (j =? -1); congruence). subst t.
  split.
  - intros Hin.
    pose proof (load_loop_origin path (m_materials d) (-1) (m_textures d) texName img) as Ho.
    rewrite Hloop in Ho. simpl in Ho.
    destruct (Ho Hin) as [Hold|(Hn & k & m & Hk & Hi & Hm & Hlen & Hread)]; [by left|].
    right. split; [exact Hn|]. split; [|by split].
    exists k, m. split; [lia | by split].
  - intros [Hold|(Hn & (k & m & Hk0 & Hk & Hm) & Hlen & Hread)].
    + pose proof (load_loop_keeps path (m_materials d) (-1) (m_textures d) _ _ Hold) as Hk.
      by rewrite Hloop in Hk.
    + subst texName.
      destruct (load_loop_complete path (m_materials d) (-1) j (m_textures d) textures
                  k m Hloop Hk ltac:(lia) Hlen) as [img' Himg'].
      pose proof (load_loop_origin path (m_materials d) (-1) (m_textures d)
                    (texture m) img') as Ho.
      rewrite Hloop in Ho. simpl in Ho.
      destruct (Ho Himg') as [Hold|(_ & _ & _ & _ & _ & _ & _ & Hread')]; [congruence|].
      unfold texture_path in Hread'. congruence.
Qed.

(** X19. [load_textures] is left by an exception only when the decoder
    fails on the file of a material after the first whose texture name has
    more than three characters. *)
Theorem load_textures_raises (d : scene_data vec3 vec2 image) (path : string)
    (textures : gmap string image) :
  load_textures read_image d path = LoadRaised textures ->
  exists (k : nat) (material : material_t vec3),
    (0 < k)%nat /\ m_materials d !! k = Some material
    /\ (3 < String.length (texture material))%nat
    /\ read_image (replace_backslash (path ++ "/" ++ texture material)%string) = None.
Proof.
  unfold load_textures.
  destruct (load_loop read_image path (m_materials d) (-1) (m_textures d))
    as [[j t]|t] eqn:Hloop; [destruct (j =? -1); discriminate|].
  intros _. clear textures.
  assert (Hgen : forall (materials : list (material_t vec3)) i t0,
             load_loop read_image path materials i t0 = inr t ->
             exists (k : nat) (material : material_t vec3),
               i + 1 + Z.of_nat k <> 0 /\ materials !! k = Some material
               /\ (3 < String.length (texture material))%nat
               /\ read_image (replace_backslash (path ++ "/" ++ texture material)%string)
                  = None).
  { induction materials as [|m rest IH]; intros i t0 H; simpl in H; [discriminate|].
    assert (Hnext : forall t1,
               load_loop read_image path rest (i + 1) t1 = inr t ->
               exists (k : nat) (material : material_t vec3),
                 i + 1 + Z.of_nat k <> 0 /\ (m :: rest) !! k = Some material
                 /\ (3 < String.length (texture material))%nat
                 /\ read_image (replace_backslash (path ++ "/" ++ texture material)%string)
                    = None).
    { intros t1 H1. apply IH in H1 as (k & mat & Hi & Hk & Hrest).
      exists (S k), mat. split; [lia|]. by split. }
    destruct (Z.eqb_spec (i + 1) 0) as [Hz|Hz]; [by eapply Hnext|].
    destruct (Nat.ltb_spec 3 (String.length (texture m))) as [Hlen|Hlen]; simpl in H;
      [|by eapply Hnext].
    destruct (bool_decide (t0 !! texture m = None)); simpl in H; [|by eapply Hnext].
    destruct (read_image (replace_backslash (path ++ "/" ++ texture m))) eqn:Hread;
      [by eapply Hnext|].
    exists 0%nat, m. split; [lia|]. by repeat split. }
  destruct (Hgen _ _ _ Hloop) as (k & m & Hi & Hk & Hrest).
  exists k, m. split; [lia|]. by split.
Qed.

End LoadTextures.

Lemma load_textures_result_witness :
  load_textures sample_read_image sample_scene_data_bare "assets"
  = Loaded false (m_textures sample_scene_data_bare).
Proof.
  apply (proj1 (proj2 (load_textures_result sample_read_image sample_scene_data_bare
                         "assets"))).
  reflexivity.
Defined.

Lemma load_textures_keeps_witness :
  textures_after (load_textures sample_read_image sample_scene_data_textured "assets")
    !! "wood.png"%string = Some 3%nat.
Proof.
  apply (load_textures_keeps sample_read_image sample_scene_data_textured "assets").
  reflexivity.
Defined.

Lemma load_textures_loads_witness :
  ({[ "tex\brick.png"%string := 7%nat ]} : gmap string nat) !! "tex\brick.png"%string
  = Some 7%nat
  <-> ((m_textures sample_scene_data : gmap string nat) !! "tex\brick.png"%string
       = Some 7%nat
       \/ ((m_textures sample_scene_data : gmap string nat) !! "tex\brick.png"%string = None
           /\ (exists (k : nat) (material : material_t (Z * Z * Z)),
                 (0 < k)%nat /\ m_materials sample_scene_data !! k = Some material
                 /\ texture material = "tex\brick.png"%string)
           /\ (3 < String.length "tex\brick.png")%nat
           /\ sample_read_image
                (replace_backslash ("assets" ++ "/" ++ "tex\brick.png")%string)
              = Some 7%nat)).
Proof.
  apply (load_textures_loads sample_read_image sample_scene_data "assets" true).
  vm_compute. reflexivity.
Defined.

Lemma load_textures_raises_witness :
  exists (k : nat) (material : material_t (Z * Z * Z)),
    (0 < k)%nat /\ m_materials sample_scene_data !! k = Some material
    /\ (3 < String.length (texture material))%nat
    /\ failing_read_image (replace_backslash ("assets" ++ "/" ++ texture material)%string)
       = None.
Proof.
  apply (load_textures_raises failing_read_image sample_scene_data "assets" ∅).
  vm_compute. reflexivity.
Defined.

(** ** The written file and the depth argument *)

Lemma flat_map_node_bytes_inj (bo : byte_order) (a b : list node_t) :
  Forall (fun n => Forall is_int (children n)) a ->
  Forall (fun n => Forall is_int (children n)) b ->
  length a = length b ->
  flat_map (node_bytes bo) a = flat_map (node_bytes bo) b -> a = b.
Proof.
  intros Ha Hb Hlen Heq.
  assert (Hmap : map (node_bytes bo) a = map (node_bytes bo) b).
  { rewrite <- (pieces_flat_map (node_bytes bo) 32 (length_node_bytes bo) a []).
    rewrite <- (pieces_flat_map (node_bytes bo) 32 (length_node_bytes bo) b []).
    by rewrite Heq, Hlen. }
  assert (Hback : forall l, Forall (fun n => Forall is_int (children n)) l ->
                            map (node_of_bytes bo) (map (node_bytes bo) l) = l).
  { intros l Hl. rewrite map_map.
    rewrite (map_ext_Forall _ id); [apply map_id|].
    eapply Forall_impl; [exact Hl|]. intros n Hn. by apply node_of_bytes_node_bytes. }
  rewrite <- (Hback a Ha), <- (Hback b Hb). by rewrite Hmap.
Qed.

(** X20. The bytes written determine the arena: two arenas of [int]
    slots whose written forms are equal, for one byte order, are equal. *)
Theorem serialize_inj (bo : byte_order) (a b : list node_t) :
  Forall (fun n => Forall is_int (children n)) a ->
  Forall (fun n => Forall is_int (children n)) b ->
  serialize bo a = serialize bo b -> a = b.
Proof.
  intros Ha Hb Heq.
  assert (Hlen : length a = length b).
  { pose proof (length_serialize bo a) as La. pose proof (length_serialize bo b) as Lb.
    rewrite Heq in La. lia. }
  apply (flat_map_node_bytes_inj bo a b Ha Hb Hlen).
  unfold serialize in Heq.
  apply (f_equal (drop 8)) in Heq.
  by rewrite !drop_app_length' in Heq by (by rewrite length_object_bytes).
Qed.

Lemma serialize_inj_witness :
  Forall (fun n => Forall is_int (children n)) sample_arena
  /\ (serialize BigEndian sample_arena = serialize BigEndian sample_arena
      -> sample_arena = sample_arena).
Proof.
  assert (H : Forall (fun n => Forall is_int (children n)) sample_arena).
  { unfold is_int, sample_arena. repeat constructor; simpl; lia. }
  split; [exact H|].
  apply (serialize_inj BigEndian sample_arena sample_arena H H).
Defined.

(** X21. Whenever [create] writes the output file, it has loaded the
    scene and its textures, the builder has returned, the stream was open
    and [create] returns true; the file holds the serialized form of the
    arena built, eight bytes of count and thirty-two bytes for each
    node. *)
Theorem create_writes_built_arena {vec3 vec2 image : Type} (h : host vec3 vec2 image)
    (filename out_filename : string) (depth : Z) (result : bool)
    (written : list Byte.byte) :
  create h filename out_filename depth = Created result (Some written) ->
  result = true /\ ofstream_open h out_filename = true
  /\ exists sc b textures m_nodes,
       scene_load h filename = Some sc
       /\ load_textures (decode_image h) sc (parent_path h filename) = Loaded b textures
       /\ build h (with_textures sc textures) depth = Built m_nodes
       /\ written = serialize (host_order h) m_nodes
       /\ Z.of_nat (length written) = 8 + 32 * Z.of_N (size m_nodes).
Proof.
  unfold create. destruct (scene_load h filename) as [sc|]; [|discriminate].
  destruct (load_textures (decode_image h) sc (parent_path h filename))
    as [b textures|textures] eqn:Ht; [|discriminate].
  destruct (build h (with_textures sc textures) depth) as [m_nodes|] eqn:Hb;
    [|discriminate].
  destruct (ofstream_open h out_filename); [|discriminate].
  intros [= <- <-]. split; [reflexivity|]. split; [reflexivity|].
  exists sc, b, textures, m_nodes.
  split; [reflexivity|]. split; [exact Ht|]. split; [exact Hb|].
  split; [reflexivity|].
  rewrite length_serialize. unfold size. lia.
Qed.

Lemma create_writes_built_arena_witness :
  true = true /\ ofstream_open sample_host "out.bin" = true
  /\ exists sc b textures m_nodes,
       scene_load sample_host "assets/mesh.obj" = Some sc
       /\ load_textures (decode_image sample_host) sc
            (parent_path sample_host "assets/mesh.obj") = Loaded b textures
       /\ build sample_host (with_textures sc textures) 5 = Built m_nodes
       /\ serialize LittleEndian sample_arena = serialize (host_order sample_host) m_nodes
       /\ Z.of_nat (length (serialize LittleEndian sample_arena))
          = 8 + 32 * Z.of_N (size m_nodes).
Proof.
  apply (create_writes_built_arena sample_host "assets/mesh.obj" "out.bin" 5 true).
  reflexivity.
Defined.

(** X22. The depth reaches the builder through a [uint8_t]: the builder
    is only ever called with a depth from 0 to 255, and two runs whose
    depth arguments differ by a multiple of 256 end alike. *)
Theorem main_depth_through_uint8 {vec3 vec2 image : Type} (h : host vec3 vec2 image)
    (tool input output a b : string) (more : list string) :
  atoi h a mod 256 = atoi h b mod 256 ->
  main h (tool :: input :: output :: a :: more)
  = main h (tool :: input :: output :: b :: more)
  /\ create h input output (to_uint8 (atoi h a))
     = create h input output (to_uint8 (atoi h b))
  /\ 0 <= to_uint8 (atoi h a) <= 255.
Proof.
  intros Hmod. unfold main. simpl length.
  assert (Heq : to_uint8 (atoi h a) = to_uint8 (atoi h b)).
  { unfold to_uint8. change (2 ^ 8) with 256. exact Hmod. }
  split; [|split].
  - destruct (Z.of_nat _ <? 4); [reflexivity|]. simpl nth. by rewrite Heq.
  - by rewrite Heq.
  - unfold to_uint8. change (2 ^ 8) with 256.
    pose proof (Z.mod_pos_bound (atoi h a) 256 ltac:(lia)). lia.
Qed.

Lemma main_depth_through_uint8_witness :
  main sample_host ["tool"; "assets/mesh.obj"; "out.bin"; "257"]%string
  = main sample_host ["tool"; "assets/mesh.obj"; "out.bin"; "1"]%string
  /\ create sample_host "assets/mesh.obj" "out.bin" (to_uint8 (atoi sample_host "257"))
     = create sample_host "assets/mesh.obj" "out.bin" (to_uint8 (atoi sample_host "1"))
  /\ 0 <= to_uint8 (atoi sample_host "257") <= 255.
Proof.
  apply (main_depth_through_uint8 sample_host "tool" "assets/mesh.obj" "out.bin"
           "257" "1" []).
  reflexivity.
Defined.
